(** * ROC AUC metric (monai/metrics/rocauc.py): shallow embedding and properties

    Modelling choices.
    - Scores and AUC values are Python/torch floating point numbers in the
      source.  They are modelled by canonical rationals [Qc]: comparisons are
      the comparisons of the denoted numbers, sums and quotients are exact.
      The special values (NaN, infinities) of scores are outside the model;
      the one NaN the code can produce from finite data, numpy's mean of an
      empty list, is a value of its own.
    - The division of line 36 is also given as it is computed, in binary64
      ([truediv64], [_calculate64]), for the statements on which the
      rounding of the quotient bears.
    - Labels are integers [Z].
    - Exceptions are the Python exceptions the code can raise.  A computation
      returns its outcome together with the number of calls to the pairwise
      comparator [compare] it performed, so that statements about what
      happens before any comparison work can be made.
    - [warnings.warn] has no effect on results and is left out. *)

From Stdlib Require Import String Bool Arith ZArith QArith Qcanon Lia List Permutation.
From Stdlib Require Import SpecFloat.
Import ListNotations.

Local Open Scope nat_scope.

(** ** Exceptions and the computation monad *)

Inductive exn : Type :=
| ValueError (msg : string)
| ZeroDivisionError
| IndexError
| TypeError
| RuntimeError.

Inductive outcome (A : Type) : Type :=
| Return (a : A)
| Raise (e : exn).

Arguments Return {A} a.
Arguments Raise {A} e.

(** Outcome of a computation and number of [compare] calls performed. *)
Definition M (A : Type) : Type := (outcome A * nat)%type.

Definition ret {A} (a : A) : M A := (Return a, 0).

Definition raise {A} (e : exn) : M A := (Raise e, 0).

Definition bind {A B} (m : M A) (f : A -> M B) : M B :=
  match m with
  | (Return a, c) => let (o, c') := f a in (o, c + c')
  | (Raise e, c) => (Raise e, c)
  end.

Notation "x <- m ;; k" := (bind m (fun x => k))
  (at level 61, m at next level, right associativity).
Notation "' pat <- m ;; k" := (bind m (fun x => match x with pat => k end))
  (at level 61, pat pattern, m at next level, right associativity).

(** A list comprehension whose element expression may raise: elements are
    evaluated from left to right. *)
Fixpoint mapM {A B} (f : A -> M B) (l : list A) : M (list B) :=
  match l with
  | [] => ret []
  | x :: xs => v <- f x ;; vs <- mapM f xs ;; ret (v :: vs)
  end.

Definition run {A} (m : M A) : outcome A := fst m.
Definition comparisons {A} (m : M A) : nat := snd m.

(** ** Numbers *)

Definition half : Qc := Q2Qc (1 # 2).

Definition Qc_of_nat (n : nat) : Qc := Q2Qc (inject_Z (Z.of_nat n)).
Definition Qc_of_Z (z : Z) : Qc := Q2Qc (inject_Z z).

Definition gtb (a b : Qc) : bool :=
  match (a ?= b)%Qc with Gt => true | _ => false end.

(** Python's builtin [sum]: a left fold starting at 0. *)
Definition sum (l : list Qc) : Qc := fold_left Qcplus l 0%Qc.
Definition sumZ (l : list Z) : Z := fold_left Z.add l 0%Z.

(** [a / n] for a number [a] and an [int] [n], as an exact quotient; the
    binary64 number computed is [truediv64] below. *)
Definition truediv (a : Qc) (n : nat) : M Qc :=
  if n =? 0 then raise ZeroDivisionError else ret (a / Qc_of_nat n)%Qc.

(** ** [_calculate] *)

Definition binary_msg : string := "labels should be binary values.".

(** The loop of lines 19-25: [index] is the value of [enumerate]'s counter,
    the two lists are the accumulators. *)
Fixpoint split_indexes (index : nat) (y : list Z)
    (pos_indexes neg_indexes : list nat) : M (list nat * list nat) :=
  match y with
  | [] => ret (pos_indexes, neg_indexes)
  | y_ :: rest =>
      if (y_ =? 1)%Z then
        split_indexes (S index) rest (pos_indexes ++ [index]) neg_indexes
      else if (y_ =? 0)%Z then
        split_indexes (S index) rest pos_indexes (neg_indexes ++ [index])
      else raise (ValueError binary_msg)
  end.

(** The inner function [compare]; every call is counted. *)
Definition compare (a b : Qc) : M Qc :=
  (Return (if gtb a b then 1%Qc
           else if Qc_eq_bool a b then half
           else 0%Qc), 1).

(** [y_pred[i]] *)
Definition getitem (y_pred : list Qc) (i : nat) : M Qc :=
  match nth_error y_pred i with
  | Some v => ret v
  | None => raise IndexError
  end.

Definition _calculate (y : list Z) (y_pred : list Qc) : M Qc :=
  ' (pos_indexes, neg_indexes) <- split_indexes 0 y [] [] ;;
  rows <- mapM (fun i =>
            vs <- mapM (fun j =>
                    a <- getitem y_pred i ;;
                    b <- getitem y_pred j ;;
                    compare a b) neg_indexes ;;
            ret (sum vs)) pos_indexes ;;
  let auc := sum rows in
  truediv auc (length pos_indexes * length neg_indexes).

(** ** Tensors

    A tensor as far as the code observes it: its rank, for rank 1 its
    entries, for rank 2 its number of columns [shape[1]] and its rows. *)
Inductive tensor (A : Type) : Type :=
| T0 (x : A)
| T1 (v : list A)
| T2 (ncols : nat) (rows : list (list A))
| THigh (k : nat).

Arguments T0 {A} x.
Arguments T1 {A} v.
Arguments T2 {A} ncols rows.
Arguments THigh {A} k.

Definition ndimension {A} (t : tensor A) : nat :=
  match t with
  | T0 _ => 0
  | T1 _ => 1
  | T2 _ _ => 2
  | THigh k => 3 + k
  end.

(** A rank 2 tensor is rectangular. *)
Definition rectangular {A} (ncols : nat) (rows : list (list A)) : Prop :=
  Forall (fun r => length r = ncols) rows.

(** A tensor of rank 1 or 2 after the squeeze of a trailing dimension of
    size 1 (lines 76-81): a vector, or a matrix whose [ncols] is not 1. *)
Inductive batch (A : Type) : Type :=
| Vec (v : list A)
| Mat (ncols : nat) (rows : list (list A)).

Arguments Vec {A} v.
Arguments Mat {A} ncols rows.

(** Lines 72-81 for one of the two arguments: [None] when the rank is not
    1 or 2, otherwise the tensor with [squeeze(dim=-1)] applied when
    [shape[1] == 1]. *)
Definition normalize {A} (t : tensor A) : option (batch A) :=
  match t with
  | T1 v => Some (Vec v)
  | T2 ncols rows =>
      if ncols =? 1 then Some (Vec (concat rows)) else Some (Mat ncols rows)
  | _ => None
  end.

Definition map_batch {A B} (f : A -> B) (t : batch A) : batch B :=
  match t with
  | Vec v => Vec (map f v)
  | Mat ncols rows => Mat ncols (map (map f) rows)
  end.

(** [zip] of a row with the rows of a matrix, consing elementwise. *)
Fixpoint cons_column {A} (r : list A) (m : list (list A)) : list (list A) :=
  match r, m with
  | x :: r', c :: m' => (x :: c) :: cons_column r' m'
  | _, _ => []
  end.

(** [transpose(0, 1)] of a tensor of shape (len rows, ncols): the [ncols]
    columns, each of length [len rows]. *)
Fixpoint transpose_rows {A} (ncols : nat) (rows : list (list A)) : list (list A) :=
  match rows with
  | [] => repeat [] ncols
  | r :: rest => cons_column r (transpose_rows ncols rest)
  end.

(** [x.transpose(0, 1)]; a rank 1 tensor has no dimension 1. *)
Definition transpose {A} (t : batch A) : M (list (list A)) :=
  match t with
  | Vec _ => raise IndexError
  | Mat ncols rows => ret (transpose_rows ncols rows)
  end.

(** The local function [flat] of lines 100-101,
    [[i for k in x for i in k]]: the entries [k] of a rank 1 tensor are
    rank 0 tensors, which cannot be iterated. *)
Definition flat {A} (x : batch A) : M (list A) :=
  match x with
  | Vec [] => ret []
  | Vec (_ :: _) => raise TypeError
  | Mat _ rows => ret (concat rows)
  end.

(** The labels [_calculate] iterates over when it is handed [y] on line 91:
    the entries of a rank 1 tensor; a row of a rank 2 tensor compared with 1
    has no truth value. *)
Definition label_entries (y : batch Z) : M (list Z) :=
  match y with
  | Vec v => ret v
  | Mat _ [] => ret []
  | Mat _ (_ :: _) => raise RuntimeError
  end.

(** ** numpy *)

Inductive value : Type :=
| Float (x : Qc)
| NaN
| FloatList (l : list Qc).

(** [np.mean]: the mean of an empty list is NaN (with a warning). *)
Definition np_mean (a : list Qc) : value :=
  match a with
  | [] => NaN
  | _ => Float (sum a / Qc_of_nat (length a))%Qc
  end.

(** [np.average(a, weights=w)] for rank 1 arguments. *)
Definition np_average (a : list Qc) (w : list Z) : M value :=
  if negb (length a =? length w) then raise TypeError
  else
    let scl := sumZ w in
    if (scl =? 0)%Z then raise ZeroDivisionError
    else ret (Float (sum (map (fun p => fst p * Qc_of_Z (snd p)) (combine a w))
                     / Qc_of_Z scl)%Qc).

(** ** [compute_roc_auc] *)

Definition incompatible_msg : string :=
  "add_softmax=True and add_sigmoid=True are not compatible.".
Definition predictions_msg : string :=
  "predictions should be of shape (batch_size, n_classes) or (batch_size, ).".
Definition targets_msg : string :=
  "targets should be of shape (batch_size, n_classes) or (batch_size, ).".
Definition unsupported_msg : string := "unsupported average method.".

Section ComputeRocAuc.

(** External collaborators: [monai.networks.utils.one_hot], which returns
    a rank 2 tensor with [n_classes] columns, of which the rows are taken;
    [softmax(dim=1)] on one row; [sigmoid] on one entry. *)
Variable one_hot : batch Z -> nat -> list (list Z).
Variable softmax : list Qc -> list Qc.
Variable sigmoid : Qc -> Qc.

(** Lines 99-113. *)
Definition aggregate (y : batch Z) (n_classes : nat) (y_pred : list (list Qc))
    (average : option string) : M value :=
  if match average with Some a => String.eqb a "micro" | None => false end then
    fy <- flat y ;;
    r <- _calculate fy (concat y_pred) ;;
    ret (Float r)
  else
    y <- transpose y ;;
    let y_pred := transpose_rows n_classes y_pred in
    auc_values <- mapM (fun p => _calculate (fst p) (snd p)) (combine y y_pred) ;;
    match average with
    | None => ret (FloatList auc_values)
    | Some a =>
        if String.eqb a "macro" then ret (np_mean auc_values)
        else if String.eqb a "weighted" then
          let weights := map sumZ y in
          np_average auc_values weights
        else raise (ValueError unsupported_msg)
    end.

Definition compute_roc_auc (y_pred : tensor Qc) (y : tensor Z)
    (to_onehot_y add_softmax add_sigmoid : bool) (average : option string)
    : M value :=
  if add_softmax && add_sigmoid then raise (ValueError incompatible_msg)
  else
    match normalize y_pred with
    | None => raise (ValueError predictions_msg)
    | Some y_pred =>
    match normalize y with
    | None => raise (ValueError targets_msg)
    | Some y =>
        let y_pred := if add_sigmoid then map_batch sigmoid y_pred else y_pred in
        match y_pred with
        | Vec y_pred =>
            y <- label_entries y ;;
            r <- _calculate y y_pred ;;
            ret (Float r)
        | Mat n_classes y_pred =>
            let y := if to_onehot_y then Mat n_classes (one_hot y n_classes) else y in
            let y_pred := if add_softmax then map softmax y_pred else y_pred in
            aggregate y n_classes y_pred average
        end
    end
    end.

(** The values of the variables [y] and [y_pred] on line 99, for inputs
    that reach it. *)
Definition prepared_labels (to_onehot_y : bool) (y : batch Z) (n_classes : nat)
    : batch Z :=
  if to_onehot_y then Mat n_classes (one_hot y n_classes) else y.

Definition prepared_scores (add_softmax add_sigmoid : bool)
    (y_pred : list (list Qc)) : list (list Qc) :=
  let y_pred := if add_sigmoid then map (map sigmoid) y_pred else y_pred in
  if add_softmax then map softmax y_pred else y_pred.

End ComputeRocAuc.

(** ** Specification-side definitions *)

(** The weighted mean of the specification over the classes [0 .. n-1]. *)
Definition weighted_mean (n : nat) (auc : nat -> Qc) (positive_count : nat -> Z) : Qc :=
  (fold_right Qcplus 0%Qc
     (map (fun i => auc i * Qc_of_Z (positive_count i))%Qc (seq 0 n))
   / Qc_of_Z (fold_right Z.add 0%Z (map positive_count (seq 0 n))))%Qc.

(** Rows of pairs (label, score) of two matrices. *)
Definition zip_rows {A B} (Y : list (list A)) (P : list (list B)) : list (list (A * B)) :=
  map (fun p => combine (fst p) (snd p)) (combine Y P).

Definition frac (n : Z) (d : positive) : Qc := Q2Qc (n # d).

Definition is_binary (l : Z) : bool := ((l =? 1) || (l =? 0))%Z.

(** The value of the pairwise comparator. *)
Definition comparator (a b : Qc) : Qc :=
  match (a ?= b)%Qc with
  | Gt => 1%Qc
  | Eq => half
  | Lt => 0%Qc
  end.

(** The indices of the entries of [y] equal to [l], in increasing order
    (the default of [nth] differs from [l] and is never reached). *)
Definition indices_of (l : Z) (y : list Z) : list nat :=
  filter (fun i => (nth i y (l + 1) =? l)%Z) (seq 0 (length y)).

Definition pos (y : list Z) : list nat := indices_of 1 y.
Definition neg (y : list Z) : list nat := indices_of 0 y.

Definition score (y_pred : list Qc) (i : nat) : Qc := nth i y_pred 0%Qc.

(** The sum of the comparator over every pair (i in pos, j in neg). *)
Definition pairwise_sum (y : list Z) (y_pred : list Qc) : Qc :=
  fold_right Qcplus 0%Qc
    (map (fun p => comparator (score y_pred (fst p)) (score y_pred (snd p)))
         (list_prod (pos y) (neg y))).

(** BinaryAUC as the specification defines it. *)
Definition binary_auc (y : list Z) (y_pred : list Qc) : Qc :=
  (pairwise_sum y y_pred / Qc_of_nat (length (pos y) * length (neg y)))%Qc.

(** Column [c] of a matrix given by its rows. *)
Definition column {A} (d : A) (rows : list (list A)) (c : nat) : list A :=
  map (fun r => nth c r d) rows.

Definition columns {A} (d : A) (ncols : nat) (rows : list (list A)) : list (list A) :=
  map (column d rows) (seq 0 ncols).


Definition in_unit (x : Qc) : Prop := (0 <= x /\ x <= 1)%Qc.

Definition value_in_unit (v : value) : Prop :=
  match v with
  | Float x => in_unit x
  | NaN => False
  | FloatList l => Forall in_unit l
  end.

(** The scores of the entries labelled [l], in order. *)
Definition select (l : Z) (y : list Z) (y_pred : list Qc) : list Qc :=
  map snd (filter (fun p => (fst p =? l)%Z) (combine y y_pred)).

(** The double sum of line 34 on the scores of the positives [P] and of the
    negatives [N]. *)
Definition wins (P N : list Qc) : Qc :=
  sum (map (fun a => sum (map (fun b => comparator a b) N)) P).

(** One row and one column of the double sum. *)
Definition row (a : Qc) (N : list Qc) : Qc := sum (map (fun b => comparator a b) N).
Definition col (a : Qc) (N : list Qc) : Qc := sum (map (fun b => comparator b a) N).

(** The indices appended by the loop of [split_indexes] for the label [l],
    when the counter starts at [index]. *)
Fixpoint indexes_from (l : Z) (index : nat) (y : list Z) : list nat :=
  match y with
  | [] => []
  | y_ :: rest =>
      if (y_ =? l)%Z then index :: indexes_from l (S index) rest
      else indexes_from l (S index) rest
  end.

(** The element expression of the inner comprehension of line 34. *)
Definition pair_term (y_pred : list Qc) (i j : nat) : M Qc :=
  a <- getitem y_pred i ;; b <- getitem y_pred j ;; compare a b.

(** The element expression of the outer comprehension of line 34. *)
Definition row_term (y_pred : list Qc) (neg_indexes : list nat) (i : nat) : M Qc :=
  vs <- mapM (pair_term y_pred i) neg_indexes ;; ret (sum vs).

(** What [_calculate] computes from the scores of the positives and of the
    negatives: the outcome of the division of line 36 and the number of
    comparisons. *)
Definition quotient (P N : list Qc) : M Qc :=
  (if length P * length N =? 0 then Raise ZeroDivisionError
   else Return (wins P N / Qc_of_nat (length P * length N))%Qc,
   length P * length N).

(** The taxonomy of errors of the specification, and the entry each
    exception of the program realises: every [raise] statement of the source
    realises one entry; the exceptions raised by the interpreter or a library
    on behalf of the program realise none. *)
Inductive error_kind : Type :=
| InvalidLabelError
| ShapeError
| ConflictingTransformError
| UnsupportedAverageError
| UndefinedAUCError.

Definition classify (e : exn) : option error_kind :=
  match e with
  | ValueError msg =>
      if String.eqb msg binary_msg then Some InvalidLabelError
      else if String.eqb msg predictions_msg || String.eqb msg targets_msg
           then Some ShapeError
      else if String.eqb msg incompatible_msg then Some ConflictingTransformError
      else if String.eqb msg unsupported_msg then Some UnsupportedAverageError
      else None
  | _ => None
  end.

Definition recognized (average : option string) : bool :=
  match average with
  | None => true
  | Some a => String.eqb a "micro" || String.eqb a "macro" || String.eqb a "weighted"
  end.

(** ** Binary64

    The floating point numbers of Python are IEEE 754 binary64 numbers:
    precision 53, maximal exponent 1024. *)

Definition float_of_Z (z : Z) : spec_float := binary_normalize 53 1024 z 0 false.

(** The float of a number that is an integer or an integer and a half, as
    produced by [sum] over values 1, 0.5 and 0 (exact below 2^53). *)
Definition float_of_Qc (a : Qc) : spec_float :=
  SFdiv 53 1024 (float_of_Z (Qnum a)) (float_of_Z (Zpos (Qden a))).

(** The binary64 quotient of line 36. *)
Definition div64 (a : Qc) (n : nat) : spec_float :=
  SFdiv 53 1024 (float_of_Qc a) (float_of_Z (Z.of_nat n)).

Definition truediv64 (a : Qc) (n : nat) : M spec_float :=
  if n =? 0 then raise ZeroDivisionError else ret (div64 a n).

(** [_calculate] with the value it returns as a binary64 number. *)
Definition _calculate64 (y : list Z) (y_pred : list Qc) : M spec_float :=
  ' (pos_indexes, neg_indexes) <- split_indexes 0 y [] [] ;;
  rows <- mapM (fun i =>
            vs <- mapM (fun j =>
                    a <- getitem y_pred i ;;
                    b <- getitem y_pred j ;;
                    compare a b) neg_indexes ;;
            ret (sum vs)) pos_indexes ;;
  let auc := sum rows in
  truediv64 auc (length pos_indexes * length neg_indexes).

Definition quotient64 (P N : list Qc) : M spec_float :=
  (if length P * length N =? 0 then Raise ZeroDivisionError
   else Return (div64 (wins P N) (length P * length N)),
   length P * length N).


(** The entries of a tensor that the code can read. *)
Definition entries {A} (t : tensor A) : list A :=
  match t with
  | T0 x => [x]
  | T1 v => v
  | T2 _ rows => concat rows
  | THigh _ => []
  end.

(** * Properties *)

Lemma outcome_eq (a b : Qc) (n m : nat) :
  (a == b)%Q -> n = m -> (Return a, n) = (Return b, m).
Proof. intros H ->. f_equal. f_equal. now apply Qc_is_canon. Qed.

Lemma value_eq (a b : Qc) (n m : nat) :
  (a == b)%Q -> n = m -> (Return (Float a), n) = (Return (Float b), m).
Proof. intros H ->. do 3 f_equal. now apply Qc_is_canon. Qed.

Lemma run_Float (m : M value) (a b : Qc) (n : nat) :
  m = (Return (Float a), n) -> (a == b)%Q -> run m = Return (Float b).
Proof. intros -> H. cbn. do 2 f_equal. now apply Qc_is_canon. Qed.

Example calc_doc :
  _calculate [0; 0; 1; 1]%Z [frac 1 10; frac 4 10; frac 35 100; frac 8 10]
  = (Return (frac 3 4), 4).
Proof. apply outcome_eq; vm_compute; reflexivity. Qed.

(** ** The computation monad *)

Section MonadFacts.
Context {A B : Type}.

Lemma bind_ret_l (a : A) (f : A -> M B) : bind (ret a) f = f a.
Proof. unfold bind, ret. now destruct (f a). Qed.

Lemma bind_Return (a : A) (c : nat) (f : A -> M B) :
  bind (Return a, c) f = (fst (f a), c + snd (f a)).
Proof. unfold bind. now destruct (f a). Qed.

Lemma bind_Raise (e : exn) (c : nat) (f : A -> M B) :
  bind (Raise e, c) f = (Raise e, c).
Proof. reflexivity. Qed.

Lemma bind_Return_inv (m : M A) (f : A -> M B) (b : B) (c : nat) :
  bind m f = (Return b, c) ->
  exists a c1 c2, m = (Return a, c1) /\ f a = (Return b, c2) /\ c = c1 + c2.
Proof.
  destruct m as [[a|e] c1]; simpl; [|discriminate].
  destruct (f a) as [o c2] eqn:E. intros [= -> <-]. now exists a, c1, c2.
Qed.

End MonadFacts.

Section MapM.
Context {A B : Type}.

Lemma mapM_map (f : A -> M B) (g : A -> B) (k : nat) (l : list A) :
  (forall x, In x l -> f x = (Return (g x), k)) ->
  mapM f l = (Return (map g l), length l * k).
Proof.
  induction l as [|x l IH]; intros H; [reflexivity|].
  cbn [mapM]. rewrite (H x (or_introl eq_refl)), bind_Return.
  rewrite IH by (intros; apply H; now right). cbn.
  f_equal. lia.
Qed.

Lemma mapM_Return_inv (f : A -> M B) (l : list A) (vs : list B) (c : nat) :
  mapM f l = (Return vs, c) ->
  Forall2 (fun x v => exists k, f x = (Return v, k)) l vs.
Proof.
  revert vs c. induction l as [|x l IH]; intros vs c H.
  - simpl in H. injection H as <- _. constructor.
  - cbn [mapM] in H. apply bind_Return_inv in H as (v & c1 & c2 & Hx & H & _).
    apply bind_Return_inv in H as (vs' & c3 & c4 & Hl & H & _).
    injection H as <- _. constructor; eauto.
Qed.

Lemma mapM_length (f : A -> M B) (l : list A) (vs : list B) (c : nat) :
  mapM f l = (Return vs, c) -> length vs = length l.
Proof.
  intros H. apply mapM_Return_inv in H.
  symmetry. eapply Forall2_length; eauto.
Qed.

Lemma mapM_ext_in (f g : A -> M B) (l : list A) :
  (forall x, In x l -> f x = g x) -> mapM f l = mapM g l.
Proof.
  induction l as [|x l IH]; intros H; [reflexivity|].
  cbn [mapM]. rewrite (H x (or_introl eq_refl)).
  rewrite IH by (intros; apply H; now right). reflexivity.
Qed.
End MapM.

(** ** Rational arithmetic *)

Lemma Qc_of_nat_0 : Qc_of_nat 0 = 0%Qc.
Proof. reflexivity. Qed.

Lemma Qc_of_Z_add (a b : Z) : Qc_of_Z (a + b) = (Qc_of_Z a + Qc_of_Z b)%Qc.
Proof.
  apply Qc_is_canon. unfold Qc_of_Z, Qcplus, Q2Qc. cbn [this].
  rewrite !Qred_correct, inject_Z_plus. reflexivity.
Qed.

Lemma Qc_of_Z_mul (a b : Z) : Qc_of_Z (a * b) = (Qc_of_Z a * Qc_of_Z b)%Qc.
Proof.
  apply Qc_is_canon. unfold Qc_of_Z, Qcmult, Q2Qc. cbn [this].
  rewrite !Qred_correct, inject_Z_mult. reflexivity.
Qed.

Lemma Qc_of_Z_le (a b : Z) : (a <= b)%Z -> (Qc_of_Z a <= Qc_of_Z b)%Qc.
Proof.
  intros H. unfold Qcle, Qc_of_Z, Q2Qc. cbn [this].
  rewrite !Qred_correct, <- Zle_Qle. exact H.
Qed.

Lemma Qc_of_Z_lt (a b : Z) : (a < b)%Z -> (Qc_of_Z a < Qc_of_Z b)%Qc.
Proof.
  intros H. unfold Qclt, Qc_of_Z, Q2Qc. cbn [this].
  rewrite !Qred_correct, <- Zlt_Qlt. exact H.
Qed.

Lemma Qc_of_nat_Z (n : nat) : Qc_of_nat n = Qc_of_Z (Z.of_nat n).
Proof. reflexivity. Qed.

Lemma Qc_of_nat_add (a b : nat) : Qc_of_nat (a + b) = (Qc_of_nat a + Qc_of_nat b)%Qc.
Proof. now rewrite !Qc_of_nat_Z, Nat2Z.inj_add, Qc_of_Z_add. Qed.

Lemma Qc_of_nat_mul (a b : nat) : Qc_of_nat (a * b) = (Qc_of_nat a * Qc_of_nat b)%Qc.
Proof. now rewrite !Qc_of_nat_Z, Nat2Z.inj_mul, Qc_of_Z_mul. Qed.

Lemma Qc_of_nat_S (n : nat) : Qc_of_nat (S n) = (1 + Qc_of_nat n)%Qc.
Proof. change (S n) with (1 + n). now rewrite Qc_of_nat_add. Qed.

Lemma Qc_of_nat_pos (n : nat) : n <> 0 -> (0 < Qc_of_nat n)%Qc.
Proof.
  intros H. rewrite Qc_of_nat_Z. change 0%Qc with (Qc_of_Z 0).
  apply Qc_of_Z_lt. lia.
Qed.

Lemma Qc_of_nat_neq_0 (n : nat) : n <> 0 -> Qc_of_nat n <> 0%Qc.
Proof.
  intros H E. apply Qc_of_nat_pos in H. rewrite E in H.
  now apply (Qclt_not_eq _ _ H).
Qed.

Lemma Qcle_0_1 : (0 <= 1)%Qc.
Proof. unfold Qcle. simpl. discriminate. Qed.

Lemma Qcle_0_half : (0 <= half)%Qc.
Proof. unfold Qcle. simpl. discriminate. Qed.

Lemma Qcle_half_1 : (half <= 1)%Qc.
Proof. unfold Qcle. simpl. discriminate. Qed.

Lemma half_half : (half + half = 1)%Qc.
Proof. apply Qc_is_canon. reflexivity. Qed.

(** A quotient of a number between 0 and the (positive) divisor. *)
Lemma div_in_unit (u d : Qc) :
  (0 < d)%Qc -> (0 <= u)%Qc -> (u <= d)%Qc -> in_unit (u / d)%Qc.
Proof.
  intros Hd H0 H1.
  assert (Hne : d <> 0%Qc) by (intros E; rewrite E in Hd; now apply (Qclt_not_eq _ _ Hd)).
  assert (E : ((u / d) * d = u)%Qc) by (field; exact Hne).
  split; apply (Qcmult_lt_0_le_reg_r _ _ d Hd); rewrite E.
  - now rewrite Qcmult_0_l.
  - now rewrite Qcmult_1_l.
Qed.

(** *** Sums *)

Lemma fold_left_Qcplus (l : list Qc) (a : Qc) :
  fold_left Qcplus l a = (a + fold_left Qcplus l 0)%Qc.
Proof.
  revert a. induction l as [|x l IH]; intros a; simpl.
  - ring.
  - rewrite (IH (a + x)%Qc), (IH (0 + x)%Qc). ring.
Qed.

Lemma sum_nil : sum [] = 0%Qc.
Proof. reflexivity. Qed.

Lemma sum_cons (x : Qc) (l : list Qc) : sum (x :: l) = (x + sum l)%Qc.
Proof. unfold sum. simpl. rewrite fold_left_Qcplus. ring. Qed.

Lemma sum_app (l1 l2 : list Qc) : sum (l1 ++ l2) = (sum l1 + sum l2)%Qc.
Proof.
  induction l1 as [|x l1 IH]; simpl.
  - rewrite sum_nil. ring.
  - rewrite !sum_cons, IH. ring.
Qed.

Lemma sum_fold_right (l : list Qc) : sum l = fold_right Qcplus 0%Qc l.
Proof.
  induction l as [|x l IH]; [reflexivity|]. rewrite sum_cons, IH. reflexivity.
Qed.

Lemma sum_Permutation (l1 l2 : list Qc) : Permutation l1 l2 -> sum l1 = sum l2.
Proof.
  induction 1; rewrite ?sum_cons, ?sum_nil; try congruence.
  ring.
Qed.

Lemma sum_map_plus {A} (f g : A -> Qc) (l : list A) :
  sum (map (fun x => f x + g x)%Qc l) = (sum (map f l) + sum (map g l))%Qc.
Proof.
  induction l as [|x l IH]; simpl; rewrite ?sum_cons, ?sum_nil; [ring|].
  rewrite IH. ring.
Qed.

Lemma sum_bounds (l : list Qc) :
  Forall in_unit l -> (0 <= sum l)%Qc /\ (sum l <= Qc_of_nat (length l))%Qc.
Proof.
  induction 1 as [|x l [Hx0 Hx1] _ [IH0 IH1]].
  - split; apply Qcle_refl.
  - rewrite sum_cons. cbn [length]. rewrite Qc_of_nat_S. split.
    + rewrite <- (Qcplus_0_l 0). now apply Qcplus_le_compat.
    + now apply Qcplus_le_compat.
Qed.

Lemma fold_left_Zadd (l : list Z) (a : Z) :
  fold_left Z.add l a = (a + fold_left Z.add l 0)%Z.
Proof.
  revert a. induction l as [|x l IH]; intros a; simpl; [lia|].
  rewrite (IH (a + x)%Z), (IH x). lia.
Qed.

Lemma sumZ_cons (x : Z) (l : list Z) : sumZ (x :: l) = (x + sumZ l)%Z.
Proof. unfold sumZ. simpl. now rewrite fold_left_Zadd. Qed.

(** ** The comparator *)

Lemma compare_comparator (a b : Qc) : compare a b = (Return (comparator a b), 1).
Proof.
  unfold compare, comparator, gtb, Qc_eq_bool.
  destruct (a ?= b)%Qc eqn:E; destruct (Qc_eq_dec a b) as [H|H]; try reflexivity.
  - apply Qceq_alt in E. contradiction.
  - apply Qceq_alt in H. congruence.
Qed.

Lemma comparator_in_unit (a b : Qc) : in_unit (comparator a b).
Proof.
  unfold comparator, in_unit. destruct (a ?= b)%Qc; split;
    auto using Qcle_refl, Qcle_0_1, Qcle_0_half, Qcle_half_1.
Qed.

Lemma comparator_spec (a b : Qc) :
  ((b < a)%Qc -> comparator a b = 1%Qc)
  /\ (a = b -> comparator a b = half)
  /\ ((a < b)%Qc -> comparator a b = 0%Qc).
Proof.
  unfold comparator. repeat split; intros H.
  - now rewrite (proj1 (Qcgt_alt a b) H).
  - now rewrite (proj1 (Qceq_alt a b) H).
  - now rewrite (proj1 (Qclt_alt a b) H).
Qed.

Lemma comparator_swap (a b : Qc) : (comparator a b + comparator b a = 1)%Qc.
Proof.
  unfold comparator, Qccompare. rewrite <- (Qcompare_antisym b a).
  destruct (b ?= a)%Q; simpl; try apply half_half; apply Qc_is_canon; reflexivity.
Qed.

Lemma comparator_increasing (f : Qc -> Qc) (a b : Qc) :
  (forall x y, (x < y)%Qc -> (f x < f y)%Qc) ->
  comparator (f a) (f b) = comparator a b.
Proof.
  intros Hf. unfold comparator.
  destruct (a ?= b)%Qc eqn:E.
  - apply Qceq_alt in E. subst b.
    now rewrite (proj1 (Qceq_alt (f a) (f a)) eq_refl).
  - apply Qclt_alt in E. now rewrite (proj1 (Qclt_alt _ _) (Hf _ _ E)).
  - apply Qcgt_alt in E. now rewrite (proj1 (Qcgt_alt _ _) (Hf _ _ E)).
Qed.

(** ** The double sum *)

Lemma wins_nil_l (N : list Qc) : wins [] N = 0%Qc.
Proof. reflexivity. Qed.

Lemma wins_cons_l (a : Qc) (P N : list Qc) : wins (a :: P) N = (row a N + wins P N)%Qc.
Proof. unfold wins. simpl. now rewrite sum_cons. Qed.

Lemma wins_cons_r (b : Qc) (P N : list Qc) : wins P (b :: N) = (col b P + wins P N)%Qc.
Proof.
  unfold wins, col. rewrite <- sum_map_plus. f_equal.
  apply map_ext. intros a. simpl. now rewrite sum_cons.
Qed.

Lemma wins_nil_r (P : list Qc) : wins P [] = 0%Qc.
Proof.
  induction P as [|a P IH]; [reflexivity|].
  rewrite wins_cons_l, IH. unfold row. simpl. rewrite sum_nil. ring.
Qed.

Lemma row_col (a : Qc) (N : list Qc) : (row a N + col a N = Qc_of_nat (length N))%Qc.
Proof.
  unfold row, col. rewrite <- sum_map_plus.
  induction N as [|b N IH]; simpl; [reflexivity|].
  rewrite sum_cons, IH, comparator_swap, Qc_of_nat_S. reflexivity.
Qed.

Lemma row_bounds (a : Qc) (N : list Qc) :
  (0 <= row a N)%Qc /\ (row a N <= Qc_of_nat (length N))%Qc.
Proof.
  unfold row. rewrite <- (length_map (fun b => comparator a b) N).
  apply sum_bounds. apply Forall_forall. intros x Hx.
  apply in_map_iff in Hx as (b & <- & _). apply comparator_in_unit.
Qed.

Lemma wins_bounds (P N : list Qc) :
  (0 <= wins P N)%Qc /\ (wins P N <= Qc_of_nat (length P * length N))%Qc.
Proof.
  induction P as [|a P [IH0 IH1]].
  - split; apply Qcle_refl.
  - rewrite wins_cons_l. cbn [length Nat.mul]. rewrite Qc_of_nat_add.
    destruct (row_bounds a N) as [H0 H1]. split.
    + rewrite <- (Qcplus_0_l 0). now apply Qcplus_le_compat.
    + now apply Qcplus_le_compat.
Qed.

(** Every pair is won by exactly one side, or shared. *)
Lemma wins_swap (P N : list Qc) :
  (wins P N + wins N P = Qc_of_nat (length P * length N))%Qc.
Proof.
  induction P as [|a P IH].
  - rewrite wins_nil_l, wins_nil_r. reflexivity.
  - rewrite wins_cons_l, wins_cons_r. cbn [length Nat.mul].
    rewrite Qc_of_nat_add, <- IH, <- (row_col a N). ring.
Qed.

Lemma wins_map (f : Qc -> Qc) (P N : list Qc) :
  (forall x y, (x < y)%Qc -> (f x < f y)%Qc) ->
  wins (map f P) (map f N) = wins P N.
Proof.
  intros Hf. unfold wins. rewrite map_map. f_equal.
  apply map_ext. intros a. rewrite map_map. f_equal.
  apply map_ext. intros b. now apply comparator_increasing.
Qed.

Lemma wins_Permutation (P P' N N' : list Qc) :
  Permutation P P' -> Permutation N N' -> wins P N = wins P' N'.
Proof.
  intros HP HN. unfold wins.
  transitivity (sum (map (fun a => sum (map (fun b => comparator a b) N')) P)).
  - f_equal. apply map_ext. intros a.
    apply sum_Permutation. now apply Permutation_map.
  - apply sum_Permutation. now apply Permutation_map.
Qed.

Lemma quotient_in_unit (P N : list Qc) (r : Qc) (c : nat) :
  quotient P N = (Return r, c) -> in_unit r.
Proof.
  unfold quotient. destruct (length P * length N =? 0) eqn:E; [discriminate|].
  intros [= <- _]. apply Nat.eqb_neq in E.
  destruct (wins_bounds P N). apply div_in_unit; auto using Qc_of_nat_pos.
Qed.

Lemma quotient_Permutation (P P' N N' : list Qc) :
  Permutation P P' -> Permutation N N' -> quotient P N = quotient P' N'.
Proof.
  intros HP HN. unfold quotient.
  rewrite (wins_Permutation _ _ _ _ HP HN).
  now rewrite (Permutation_length HP), (Permutation_length HN).
Qed.

(** ** The partition of the indices *)

Lemma split_indexes_binary (y : list Z) (index : nat) (ps ns : list nat) :
  forallb is_binary y = true ->
  split_indexes index y ps ns
  = ret (ps ++ indexes_from 1 index y, ns ++ indexes_from 0 index y).
Proof.
  revert index ps ns. induction y as [|l y IH]; intros index ps ns H; simpl.
  - now rewrite !app_nil_r.
  - simpl in H. apply andb_prop in H as [Hl H]. unfold is_binary in Hl.
    destruct (l =? 1)%Z eqn:E1.
    + apply Z.eqb_eq in E1. subst l. simpl.
      rewrite IH by assumption. now rewrite <- app_assoc.
    + simpl in Hl. rewrite Hl. rewrite IH by assumption. now rewrite <- app_assoc.
Qed.

Lemma split_indexes_invalid (y : list Z) (index : nat) (ps ns : list nat) :
  forallb is_binary y = false ->
  split_indexes index y ps ns = raise (ValueError binary_msg).
Proof.
  revert index ps ns. induction y as [|l y IH]; intros index ps ns H; simpl in *.
  - discriminate.
  - unfold is_binary in H.
    destruct (l =? 1)%Z; [now apply IH|].
    destruct (l =? 0)%Z; [now apply IH|reflexivity].
Qed.

Lemma indexes_from_bound (l : Z) (y : list Z) (k i : nat) :
  In i (indexes_from l k y) -> k <= i < k + length y.
Proof.
  revert k. induction y as [|l' y IH]; intros k H; simpl in *; [contradiction|].
  destruct (l' =? l)%Z.
  - destruct H as [<-|H]; [lia|]. apply IH in H. lia.
  - apply IH in H. lia.
Qed.

Lemma indexes_from_filter (l : Z) (y : list Z) (k : nat) :
  indexes_from l k y
  = filter (fun i => (nth (i - k) y (l + 1) =? l)%Z) (seq k (length y)).
Proof.
  revert k. induction y as [|l' y IH]; intros k; [reflexivity|].
  cbn [indexes_from length seq filter]. rewrite Nat.sub_diag. cbn [nth].
  assert (E : filter (fun i => (nth (i - k) (l' :: y) (l + 1) =? l)%Z) (seq (S k) (length y))
              = indexes_from l (S k) y).
  { rewrite IH. apply filter_ext_in. intros i Hi. apply in_seq in Hi.
    replace (i - k) with (S (i - S k)) by lia. reflexivity. }
  cbn [nth] in E. rewrite E. reflexivity.
Qed.

Lemma indexes_from_indices_of (l : Z) (y : list Z) :
  indexes_from l 0 y = indices_of l y.
Proof.
  rewrite indexes_from_filter. unfold indices_of.
  apply filter_ext. intros i. now rewrite Nat.sub_0_r.
Qed.

Lemma indices_of_bound (l : Z) (y : list Z) (i : nat) :
  In i (indices_of l y) -> i < length y.
Proof.
  rewrite <- indexes_from_indices_of. intros H.
  apply indexes_from_bound in H. lia.
Qed.

Lemma indices_of_label (l : Z) (y : list Z) (i : nat) :
  In i (indices_of l y) <-> i < length y /\ nth_error y i = Some l.
Proof.
  unfold indices_of. rewrite filter_In, in_seq. split.
  - intros [Hi E]. split; [lia|]. apply Z.eqb_eq in E.
    rewrite (nth_error_nth' y (l + 1)%Z) by lia. now f_equal.
  - intros [Hi E]. split; [lia|]. apply Z.eqb_eq.
    now apply nth_error_nth.
Qed.

Lemma select_indexes_from (l : Z) (y : list Z) (y_pred : list Qc) (k : nat) :
  length y <= length y_pred ->
  map (fun i => score y_pred (i - k)) (indexes_from l k y) = select l y y_pred.
Proof.
  unfold select. revert y_pred k.
  induction y as [|l' y IH]; intros [|x s] k H; simpl in *; try reflexivity; try lia.
  assert (E : map (fun i => score (x :: s) (i - k)) (indexes_from l (S k) y)
              = map snd (filter (fun p => (fst p =? l)%Z) (combine y s))).
  { rewrite <- (IH s (S k)) by lia. apply map_ext_in. intros i Hi.
    apply indexes_from_bound in Hi. unfold score.
    replace (i - k) with (S (i - S k)) by lia. reflexivity. }
  destruct (l' =? l)%Z; simpl; rewrite E; [|reflexivity].
  now rewrite Nat.sub_diag.
Qed.

Lemma select_indices_of (l : Z) (y : list Z) (y_pred : list Qc) :
  length y <= length y_pred ->
  map (score y_pred) (indices_of l y) = select l y y_pred.
Proof.
  intros H. rewrite <- indexes_from_indices_of, <- (select_indexes_from l y y_pred 0 H).
  apply map_ext. intros i. now rewrite Nat.sub_0_r.
Qed.

(** ** [_calculate] *)

Lemma getitem_in_range (y_pred : list Qc) (i : nat) :
  i < length y_pred -> getitem y_pred i = ret (score y_pred i).
Proof.
  intros H. unfold getitem, score.
  now rewrite (nth_error_nth' y_pred 0%Qc H).
Qed.

Lemma getitem_Return_inv (y_pred : list Qc) (i : nat) (v : Qc) (c : nat) :
  getitem y_pred i = (Return v, c) -> v = score y_pred i /\ c = 0.
Proof.
  unfold getitem, score. destruct (nth_error y_pred i) eqn:E; [|discriminate].
  intros [= <- <-]. split; [|reflexivity]. symmetry. now apply nth_error_nth.
Qed.

Lemma calculate_unfold (y : list Z) (y_pred : list Qc) :
  _calculate y y_pred
  = (' (pos_indexes, neg_indexes) <- split_indexes 0 y [] [] ;;
     rows <- mapM (row_term y_pred neg_indexes) pos_indexes ;;
     truediv (sum rows) (length pos_indexes * length neg_indexes)).
Proof. reflexivity. Qed.

Lemma pair_term_in_range (y_pred : list Qc) (i j : nat) :
  i < length y_pred -> j < length y_pred ->
  pair_term y_pred i j = (Return (comparator (score y_pred i) (score y_pred j)), 1).
Proof.
  intros Hi Hj. unfold pair_term.
  rewrite (getitem_in_range _ _ Hi), bind_ret_l.
  rewrite (getitem_in_range _ _ Hj), bind_ret_l.
  apply compare_comparator.
Qed.

Lemma pair_term_Return_inv (y_pred : list Qc) (i j : nat) (v : Qc) (c : nat) :
  pair_term y_pred i j = (Return v, c) -> in_unit v.
Proof.
  unfold pair_term. intros H.
  apply bind_Return_inv in H as (a & c1 & c2 & _ & H & _).
  apply bind_Return_inv in H as (b & c3 & c4 & _ & H & _).
  rewrite compare_comparator in H. injection H as <- _.
  apply comparator_in_unit.
Qed.

Lemma row_term_in_range (y_pred : list Qc) (ns : list nat) (i : nat) :
  i < length y_pred -> (forall j, In j ns -> j < length y_pred) ->
  row_term y_pred ns i
  = (Return (row (score y_pred i) (map (score y_pred) ns)), length ns).
Proof.
  intros Hi Hns. unfold row_term.
  rewrite (mapM_map _ (fun j => comparator (score y_pred i) (score y_pred j)) 1)
    by (intros j Hj; apply pair_term_in_range; auto).
  rewrite bind_Return. cbn. unfold row. rewrite map_map.
  f_equal. lia.
Qed.

Lemma row_term_Return_inv (y_pred : list Qc) (ns : list nat) (i : nat) (v : Qc) (c : nat) :
  row_term y_pred ns i = (Return v, c) ->
  (0 <= v)%Qc /\ (v <= Qc_of_nat (length ns))%Qc.
Proof.
  unfold row_term. intros H.
  apply bind_Return_inv in H as (vs & c1 & c2 & Hvs & H & _).
  injection H as <- _.
  rewrite <- (mapM_length _ _ _ _ Hvs). apply sum_bounds.
  apply mapM_Return_inv in Hvs.
  induction Hvs as [|j v l vs (k & Hv) _ IH]; constructor; auto.
  eapply pair_term_Return_inv; eauto.
Qed.

(** The result for labels in 0/1 when every index is an index of [y_pred]. *)
Lemma calculate_indexed (y : list Z) (y_pred : list Qc) :
  forallb is_binary y = true ->
  (forall i, In i (pos y) \/ In i (neg y) -> i < length y_pred) ->
  _calculate y y_pred
  = quotient (map (score y_pred) (pos y)) (map (score y_pred) (neg y)).
Proof.
  intros Hb Hr. rewrite calculate_unfold.
  rewrite (split_indexes_binary _ _ _ _ Hb), bind_ret_l. cbn [app].
  rewrite !indexes_from_indices_of. fold (pos y) (neg y).
  rewrite (mapM_map _ (fun i => row (score y_pred i) (map (score y_pred) (neg y)))
             (length (neg y)))
    by (intros i Hi; apply row_term_in_range; auto).
  rewrite bind_Return. unfold quotient, truediv, wins, row.
  rewrite !length_map, map_map.
  destruct (length (pos y) * length (neg y) =? 0); cbn; f_equal; lia.
Qed.

Lemma calculate_binary (y : list Z) (y_pred : list Qc) :
  forallb is_binary y = true -> length y <= length y_pred ->
  _calculate y y_pred = quotient (select 1 y y_pred) (select 0 y y_pred).
Proof.
  intros Hb Hl. rewrite calculate_indexed; auto.
  - unfold pos, neg. now rewrite !select_indices_of.
  - intros i [H|H]; apply indices_of_bound in H; lia.
Qed.

Lemma calculate_invalid (y : list Z) (y_pred : list Qc) :
  forallb is_binary y = false ->
  _calculate y y_pred = (Raise (ValueError binary_msg), 0).
Proof.
  intros H. rewrite calculate_unfold.
  now rewrite (split_indexes_invalid _ _ _ _ H).
Qed.

(** When one of the two index lists is empty no score is read. *)
Lemma calculate_undefined (y : list Z) (y_pred : list Qc) :
  forallb is_binary y = true ->
  pos y = [] \/ neg y = [] ->
  _calculate y y_pred = (Raise ZeroDivisionError, 0).
Proof.
  intros Hb H. rewrite calculate_unfold.
  rewrite (split_indexes_binary _ _ _ _ Hb), bind_ret_l. cbn [app].
  rewrite !indexes_from_indices_of. fold (pos y) (neg y).
  destruct H as [-> | ->].
  - reflexivity.
  - rewrite (mapM_map _ (fun _ => 0%Qc) 0).
    + rewrite bind_Return. cbn. now rewrite !Nat.mul_0_r.
    + intros i _. reflexivity.
Qed.

Lemma sum_bounds_scaled (B : Qc) (l : list Qc) :
  Forall (fun v => (0 <= v)%Qc /\ (v <= B)%Qc) l ->
  (0 <= sum l)%Qc /\ (sum l <= Qc_of_nat (length l) * B)%Qc.
Proof.
  induction 1 as [|x l [Hx0 Hx1] _ [IH0 IH1]].
  - split; [apply Qcle_refl|]. cbn [length]. rewrite Qc_of_nat_0, Qcmult_0_l. apply Qcle_refl.
  - rewrite sum_cons. cbn [length]. rewrite Qc_of_nat_S, Qcmult_plus_distr_l, Qcmult_1_l.
    split.
    + rewrite <- (Qcplus_0_l 0). now apply Qcplus_le_compat.
    + now apply Qcplus_le_compat.
Qed.

(** Whatever the lengths, a returned value is a quotient in [0,1]. *)
Lemma calculate_Return_in_unit (y : list Z) (y_pred : list Qc) (r : Qc) (c : nat) :
  _calculate y y_pred = (Return r, c) -> in_unit r.
Proof.
  rewrite calculate_unfold. intros H.
  apply bind_Return_inv in H as ([ps ns] & c1 & c2 & _ & H & _).
  apply bind_Return_inv in H as (rows & c3 & c4 & Hrows & H & _).
  assert (Hb : Forall (fun v => (0 <= v)%Qc /\ (v <= Qc_of_nat (length ns))%Qc) rows).
  { pose proof (mapM_Return_inv _ _ _ _ Hrows) as HF. clear Hrows H.
    induction HF as [|i v l vs (k & Hv) _ IH]; constructor; auto.
    eapply row_term_Return_inv; eauto. }
  unfold truediv in H. destruct (length ps * length ns =? 0) eqn:E; [discriminate|].
  injection H as <- _. apply Nat.eqb_neq in E.
  apply sum_bounds_scaled in Hb as [H0 H1].
  rewrite (mapM_length _ _ _ _ Hrows), <- Qc_of_nat_mul in H1.
  apply div_in_unit; auto using Qc_of_nat_pos.
Qed.

Lemma calculate_Return_binary (y : list Z) (y_pred : list Qc) (r : Qc) (c : nat) :
  _calculate y y_pred = (Return r, c) -> forallb is_binary y = true.
Proof.
  intros H. destruct (forallb is_binary y) eqn:E; [reflexivity|].
  rewrite (calculate_invalid _ _ E) in H. discriminate.
Qed.

(** ** The specification's formula *)

Lemma sum_list_prod {A B} (F : A * B -> Qc) (l1 : list A) (l2 : list B) :
  fold_right Qcplus 0%Qc (map F (list_prod l1 l2))
  = sum (map (fun a => sum (map (fun b => F (a, b)) l2)) l1).
Proof.
  rewrite <- sum_fold_right.
  induction l1 as [|a l1 IH]; [reflexivity|].
  cbn [list_prod map]. rewrite map_app, sum_app, sum_cons, IH, map_map.
  reflexivity.
Qed.

Lemma pairwise_sum_wins (y : list Z) (y_pred : list Qc) :
  pairwise_sum y y_pred
  = wins (map (score y_pred) (pos y)) (map (score y_pred) (neg y)).
Proof.
  unfold pairwise_sum, wins. rewrite sum_list_prod, map_map.
  f_equal. apply map_ext. intros i. now rewrite map_map.
Qed.

Lemma Forall_is_binary (y : list Z) :
  Forall (fun l => l = 0%Z \/ l = 1%Z) y <-> forallb is_binary y = true.
Proof.
  rewrite forallb_forall, Forall_forall. unfold is_binary.
  split; intros H l Hl; specialize (H l Hl).
  - destruct H as [-> | ->]; reflexivity.
  - apply orb_prop in H as [H|H]; apply Z.eqb_eq in H; auto.
Qed.

Lemma In_indices_of (l : Z) (y : list Z) : In l y -> indices_of l y <> [].
Proof.
  intros H. apply In_nth_error in H as [i Hi].
  assert (Hin : In i (indices_of l y)).
  { apply indices_of_label. split; [|assumption].
    apply nth_error_Some. congruence. }
  intros E. rewrite E in Hin. contradiction.
Qed.

Lemma indices_of_nil (l : Z) (y : list Z) : ~ In l y -> indices_of l y = [].
Proof.
  intros H. destruct (indices_of l y) as [|i t] eqn:E; [reflexivity|].
  exfalso. apply H. assert (Hin : In i (indices_of l y)) by (rewrite E; now left).
  apply indices_of_label in Hin as [_ Hin]. eapply nth_error_In; eauto.
Qed.

Lemma calculate_defined (y : list Z) (y_pred : list Qc) :
  forallb is_binary y = true -> In 1%Z y -> In 0%Z y -> length y <= length y_pred ->
  _calculate y y_pred = (Return (binary_auc y y_pred), length (pos y) * length (neg y)).
Proof.
  intros Hb H1 H0 Hl. rewrite calculate_indexed; auto.
  - unfold quotient, binary_auc. rewrite !length_map, pairwise_sum_wins.
    apply In_indices_of in H1, H0. fold (pos y) in H1. fold (neg y) in H0.
    destruct (length (pos y) * length (neg y) =? 0) eqn:E; [|reflexivity].
    apply Nat.eqb_eq in E. destruct (pos y), (neg y); simpl in E; congruence || lia.
  - intros i [H|H]; apply indices_of_bound in H; lia.
Qed.

(** *** Claim C1 *)

(** C1. For labels in 0/1 with at least one 1 and one 0 and scores of the
    same length, [_calculate] returns the sum of the comparator over all
    pairs (i in pos, j in neg) divided by |pos|*|neg|, after exactly
    |pos|*|neg| comparisons, where the comparator is 1 when the first score
    is greater, 1/2 on a tie and 0 when it is smaller; for labels 0,0,1,1
    and scores 0.1, 0.4, 0.35, 0.8 the result is 0.75, also through
    [compute_roc_auc]. *)
Theorem C1_calculate_is_pairwise_ratio :
  (forall (y : list Z) (y_pred : list Qc),
      Forall (fun l => l = 0%Z \/ l = 1%Z) y ->
      In 1%Z y -> In 0%Z y -> length y_pred = length y ->
      _calculate y y_pred
      = (Return (binary_auc y y_pred), length (pos y) * length (neg y)))
  /\ (forall a b : Qc,
         ((b < a)%Qc -> comparator a b = 1%Qc)
         /\ (a = b -> comparator a b = frac 1 2)
         /\ ((a < b)%Qc -> comparator a b = 0%Qc))
  /\ run (_calculate [0; 0; 1; 1]%Z [frac 1 10; frac 4 10; frac 35 100; frac 8 10])
     = Return (frac 3 4)
  /\ (forall one_hot softmax sigmoid,
         run (compute_roc_auc one_hot softmax sigmoid
                (T1 [frac 1 10; frac 4 10; frac 35 100; frac 8 10])
                (T1 [0; 0; 1; 1]%Z) false false false (Some "macro"%string))
         = Return (Float (frac 3 4))).
Proof.
  split; [|split; [|split]].
  - intros y y_pred Hb H1 H0 Hl. apply calculate_defined; auto.
    + now apply Forall_is_binary.
    + lia.
  - apply comparator_spec.
  - now rewrite calc_doc.
  - intros. cbn [compute_roc_auc andb normalize label_entries].
    rewrite bind_ret_l, calc_doc. reflexivity.
Qed.

Lemma C1_witness :
  _calculate [1; 0; 0]%Z [frac 1 2; frac 1 2; frac 1 3]
  = (Return (binary_auc [1; 0; 0]%Z [frac 1 2; frac 1 2; frac 1 3]),
     length (pos [1; 0; 0]%Z) * length (neg [1; 0; 0]%Z)).
Proof.
  apply (proj1 C1_calculate_is_pairwise_ratio).
  - apply Forall_is_binary. reflexivity.
  - simpl; auto.
  - simpl; auto.
  - reflexivity.
Defined.

(** *** Claim C9 *)

Lemma invalid_label_not_binary (y : list Z) :
  (exists l, In l y /\ l <> 0%Z /\ l <> 1%Z) -> forallb is_binary y = false.
Proof.
  intros (l & Hin & H0 & H1).
  destruct (forallb is_binary y) eqn:E; [|reflexivity].
  apply Forall_is_binary in E. rewrite Forall_forall in E.
  destruct (E l Hin); contradiction.
Qed.

(** C9. A label outside 0/1 makes [_calculate] fail with the ValueError
    'labels should be binary values.' (the InvalidLabelError of the
    taxonomy), before any comparison; on labels in 0/1 the loop returns as
    pos exactly the indices labelled 1 and as neg exactly those labelled 0,
    in increasing order. *)
Theorem C9_invalid_label_and_partition :
  (forall (y : list Z) (y_pred : list Qc),
      (exists l, In l y /\ l <> 0%Z /\ l <> 1%Z) ->
      _calculate y y_pred = (Raise (ValueError binary_msg), 0))
  /\ classify (ValueError binary_msg) = Some InvalidLabelError
  /\ (forall y_pred, run (_calculate [0; 2; 1]%Z y_pred) = Raise (ValueError binary_msg))
  /\ (forall y : list Z,
         Forall (fun l => l = 0%Z \/ l = 1%Z) y ->
         split_indexes 0 y [] [] = ret (pos y, neg y))
  /\ (forall (y : list Z) (i : nat),
         (In i (pos y) <-> nth_error y i = Some 1%Z)
         /\ (In i (neg y) <-> nth_error y i = Some 0%Z)).
Proof.
  repeat split.
  - intros y y_pred H. apply calculate_invalid. now apply invalid_label_not_binary.
  - intros y Hb. apply Forall_is_binary in Hb.
    rewrite (split_indexes_binary _ _ _ _ Hb). cbn [app].
    now rewrite !indexes_from_indices_of.
  - intros H. now apply indices_of_label in H.
  - intros H. apply indices_of_label. split; [|assumption].
    apply nth_error_Some. congruence.
  - intros H. now apply indices_of_label in H.
  - intros H. apply indices_of_label. split; [|assumption].
    apply nth_error_Some. congruence.
Qed.

Lemma C9_witness :
  _calculate [1; 2; 0]%Z [frac 1 2; frac 1 3; frac 1 4] = (Raise (ValueError binary_msg), 0)
  /\ split_indexes 0 [1; 0; 0; 1]%Z [] [] = ret ([0; 3], [1; 2]).
Proof.
  split.
  - apply (proj1 C9_invalid_label_and_partition).
    exists 2%Z. simpl. repeat split; auto; lia.
  - apply (proj1 (proj2 (proj2 (proj2 C9_invalid_label_and_partition)))).
    apply Forall_is_binary. reflexivity.
Defined.

(** *** Claim C2 *)

(** C2 as stated fails: on the labels 0,0 (no positive) the call fails with
    the interpreter's ZeroDivisionError of the final division, which is none
    of the errors the program raises itself. *)
Lemma C2_counterexample :
  ~ (forall (y : list Z) (y_pred : list Qc),
        ~ In 1%Z y \/ ~ In 0%Z y ->
        exists e, run (_calculate y y_pred) = Raise e
                  /\ classify e = Some UndefinedAUCError).
Proof.
  intros H.
  destruct (H [0; 0]%Z [frac 1 2; frac 1 3]) as (e & He & Hc).
  - left. simpl. intros [E|[E|[]]]; discriminate.
  - vm_compute in He. injection He as <-. discriminate.
Qed.

(** C2, amended. When all labels are in 0/1 and there is no positive or no
    negative, [_calculate] fails with ZeroDivisionError, whatever the
    scores, without reading or comparing any; it returns no value. *)
Theorem C2_undefined_auc_is_zero_division (y : list Z) (y_pred : list Qc) :
  Forall (fun l => l = 0%Z \/ l = 1%Z) y ->
  ~ In 1%Z y \/ ~ In 0%Z y ->
  _calculate y y_pred = (Raise ZeroDivisionError, 0)
  /\ classify ZeroDivisionError = None.
Proof.
  intros Hb H. split; [|reflexivity].
  apply calculate_undefined.
  - now apply Forall_is_binary.
  - destruct H as [H|H]; [left|right]; now apply indices_of_nil.
Qed.

Lemma C2_witness :
  _calculate [1; 1; 1]%Z [frac 1 2; frac 1 3] = (Raise ZeroDivisionError, 0)
  /\ classify ZeroDivisionError = None.
Proof.
  apply C2_undefined_auc_is_zero_division.
  - apply Forall_is_binary. reflexivity.
  - right. simpl. intros [E|[E|[E|[]]]]; discriminate.
Defined.

(** *** Claim C8 *)

Lemma getitem_map (f : Qc -> Qc) (y_pred : list Qc) (i : nat) :
  getitem (map f y_pred) i
  = match nth_error y_pred i with
    | Some v => ret (f v)
    | None => raise IndexError
    end.
Proof. unfold getitem. rewrite nth_error_map. now destruct (nth_error y_pred i). Qed.

Lemma compare_increasing (f : Qc -> Qc) (a b : Qc) :
  (forall x y, (x < y)%Qc -> (f x < f y)%Qc) ->
  compare (f a) (f b) = compare a b.
Proof. intros Hf. rewrite !compare_comparator. now rewrite comparator_increasing. Qed.

Lemma pair_term_map (f : Qc -> Qc) (y_pred : list Qc) (i j : nat) :
  (forall x y, (x < y)%Qc -> (f x < f y)%Qc) ->
  pair_term (map f y_pred) i j = pair_term y_pred i j.
Proof.
  intros Hf. unfold pair_term. rewrite !getitem_map. unfold getitem.
  destruct (nth_error y_pred i) as [a|]; [|reflexivity].
  rewrite !bind_ret_l.
  destruct (nth_error y_pred j) as [b|]; [|reflexivity].
  rewrite !bind_ret_l. now apply compare_increasing.
Qed.

(** C8. Applying a strictly increasing function to every score changes
    neither the outcome of [_calculate] (value or exception) nor the number
    of comparisons. *)
Theorem C8_monotone_transform_invariance
    (f : Qc -> Qc) (y : list Z) (y_pred : list Qc) :
  (forall a b, (a < b)%Qc -> (f a < f b)%Qc) ->
  _calculate y (map f y_pred) = _calculate y y_pred.
Proof.
  intros Hf. rewrite !calculate_unfold.
  destruct (split_indexes 0 y [] []) as [[[ps ns]|e] c]; [|reflexivity].
  cbn [bind].
  assert (E : mapM (row_term (map f y_pred) ns) ps = mapM (row_term y_pred ns) ps).
  { apply mapM_ext_in. intros i _. unfold row_term. f_equal.
    apply mapM_ext_in. intros j _. now apply pair_term_map. }
  now rewrite E.
Qed.

Lemma C8_witness :
  _calculate [0; 1; 1; 0]%Z
    (map (fun x => x + 1)%Qc [frac 1 2; frac 1 3; frac 3 4; frac 1 3])
  = _calculate [0; 1; 1; 0]%Z [frac 1 2; frac 1 3; frac 3 4; frac 1 3].
Proof.
  apply C8_monotone_transform_invariance.
  intros a b H. apply Qclt_minus_iff. apply Qclt_minus_iff in H.
  now replace (b + 1 + - (a + 1))%Qc with (b + - a)%Qc by ring.
Defined.

(** *** Claim C10 *)





Lemma Return_inj {A} (a b : A) : Return a = Return b -> a = b.
Proof.
  intros H.
  exact (f_equal (fun o => match o with Return x => x | Raise _ => a end) H).
Qed.

Lemma pos_neg_nonzero (y : list Z) :
  In 1%Z y -> In 0%Z y -> length (pos y) * length (neg y) <> 0.
Proof.
  intros H1 H0. apply In_indices_of in H1, H0. fold (pos y) in H1. fold (neg y) in H0.
  destruct (pos y), (neg y); simpl; congruence.
Qed.

(** The binary64 result, for labels in 0/1 and enough scores. *)
Lemma calculate64_binary (y : list Z) (y_pred : list Qc) :
  forallb is_binary y = true -> length y <= length y_pred ->
  _calculate64 y y_pred = quotient64 (select 1 y y_pred) (select 0 y y_pred).
Proof.
  intros Hb Hl.
  change (_calculate64 y y_pred)
    with (' (pos_indexes, neg_indexes) <- split_indexes 0 y [] [] ;;
          rows <- mapM (row_term y_pred neg_indexes) pos_indexes ;;
          truediv64 (sum rows) (length pos_indexes * length neg_indexes)).
  rewrite (split_indexes_binary _ _ _ _ Hb), bind_ret_l. cbn [app].
  rewrite !indexes_from_indices_of.
  rewrite (mapM_map _ (fun i => row (score y_pred i)
                                  (map (score y_pred) (indices_of 0 y)))
             (length (indices_of 0 y))).
  - rewrite bind_Return. unfold quotient64, truediv64, wins, row.
    rewrite <- !select_indices_of by assumption.
    rewrite !length_map, map_map.
    destruct (length (indices_of 1 y) * length (indices_of 0 y) =? 0); cbn;
      f_equal; lia.
  - intros i Hi. apply row_term_in_range.
    + apply indices_of_bound in Hi. lia.
    + intros j Hj. apply indices_of_bound in Hj. lia.
Qed.




(** ** Range of [_calculate] *)

Lemma run_Return {A} (m : M A) (a : A) : run m = Return a -> m = (Return a, comparisons m).
Proof. destruct m as [o c]. simpl. now intros ->. Qed.

Lemma calculate_run_in_unit (y : list Z) (y_pred : list Qc) (r : Qc) :
  run (_calculate y y_pred) = Return r -> in_unit r.
Proof. intros H. apply run_Return in H. eapply calculate_Return_in_unit; eauto. Qed.

(** ** Where exceptions come from *)

Lemma bind_Raise_inv {A B} (m : M A) (f : A -> M B) (e : exn) (c : nat) :
  bind m f = (Raise e, c) ->
  m = (Raise e, c)
  \/ exists a c1 c2, m = (Return a, c1) /\ f a = (Raise e, c2) /\ c = c1 + c2.
Proof.
  destruct m as [[a|e'] c1]; simpl.
  - destruct (f a) as [o c2] eqn:E. intros [= -> <-]. right. now exists a, c1, c2.
  - intros [= -> ->]. now left.
Qed.

Lemma mapM_Raise_inv {A B} (f : A -> M B) (l : list A) (e : exn) (c : nat) :
  mapM f l = (Raise e, c) -> exists x k, In x l /\ f x = (Raise e, k).
Proof.
  revert c. induction l as [|x l IH]; intros c H; [discriminate|].
  cbn [mapM] in H. apply bind_Raise_inv in H as [H | (v & c1 & c2 & _ & H & _)].
  - exists x, c. split; [now left|assumption].
  - apply bind_Raise_inv in H as [H | (vs & c3 & c4 & _ & H & _)]; [|discriminate].
    apply IH in H as (x' & k & Hin & Hx). exists x', k. split; [now right|assumption].
Qed.

Lemma mapM_cost {A B} (f : A -> M B) (g : A -> B) (k : A -> nat) (l : list A) :
  (forall x, In x l -> f x = (Return (g x), k x)) ->
  mapM f l = (Return (map g l), list_sum (map k l)).
Proof.
  induction l as [|x l IH]; intros H; [reflexivity|].
  cbn [mapM]. rewrite (H x (or_introl eq_refl)), bind_Return.
  rewrite IH by (intros; apply H; now right).
  rewrite bind_Return. unfold ret, list_sum. cbn [fst snd map fold_right].
  f_equal. lia.
Qed.

Lemma getitem_Raise_inv (y_pred : list Qc) (i : nat) (e : exn) (c : nat) :
  getitem y_pred i = (Raise e, c) -> e = IndexError.
Proof. unfold getitem. destruct (nth_error y_pred i); [discriminate|]. now intros [= <- _]. Qed.

Lemma pair_term_Raise_inv (y_pred : list Qc) (i j : nat) (e : exn) (c : nat) :
  pair_term y_pred i j = (Raise e, c) -> e = IndexError.
Proof.
  unfold pair_term. intros H.
  apply bind_Raise_inv in H as [H | (a & c1 & c2 & _ & H & _)];
    [now apply getitem_Raise_inv in H|].
  apply bind_Raise_inv in H as [H | (b & c3 & c4 & _ & H & _)];
    [now apply getitem_Raise_inv in H|].
  rewrite compare_comparator in H. discriminate.
Qed.

Lemma row_term_Raise_inv (y_pred : list Qc) (ns : list nat) (i : nat) (e : exn) (c : nat) :
  row_term y_pred ns i = (Raise e, c) -> e = IndexError.
Proof.
  unfold row_term. intros H.
  apply bind_Raise_inv in H as [H | (vs & c1 & c2 & _ & H & _)]; [|discriminate].
  apply mapM_Raise_inv in H as (j & k & _ & H). now apply pair_term_Raise_inv in H.
Qed.

(** The exceptions of [_calculate]: the ValueError of the label loop, raised
    before any comparison, an IndexError of [y_pred[i]], or the
    ZeroDivisionError of the final division. *)
Lemma calculate_Raise_inv (y : list Z) (y_pred : list Qc) (e : exn) (c : nat) :
  _calculate y y_pred = (Raise e, c) ->
  (e = ValueError binary_msg /\ c = 0) \/ e = ZeroDivisionError \/ e = IndexError.
Proof.
  destruct (forallb is_binary y) eqn:Hb.
  - rewrite calculate_unfold, (split_indexes_binary _ _ _ _ Hb), bind_ret_l.
    intros H. right.
    apply bind_Raise_inv in H as [H | (rows & c1 & c2 & _ & H & _)].
    + right. apply mapM_Raise_inv in H as (i & k & _ & H).
      now apply row_term_Raise_inv in H.
    + left. unfold truediv in H.
      destruct (_ =? 0); [|discriminate]. now injection H as <- _.
  - rewrite (calculate_invalid _ _ Hb). intros [= <- <-]. now left.
Qed.

Lemma calculate_Raise_classify (y : list Z) (y_pred : list Qc) (e : exn) (c : nat) :
  _calculate y y_pred = (Raise e, c) ->
  (classify e = Some InvalidLabelError /\ c = 0) \/ classify e = None.
Proof.
  intros H. apply calculate_Raise_inv in H as [[-> ->] | [-> | ->]]; auto.
Qed.

(** ** [compute_roc_auc]: the paths through the function *)

Section ComputeFacts.
Variable one_hot : batch Z -> nat -> list (list Z).
Variable softmax : list Qc -> list Qc.
Variable sigmoid : Qc -> Qc.

Local Notation "'roc_auc'" := (compute_roc_auc one_hot softmax sigmoid).

(** [normalize] rejects exactly the ranks other than 1 and 2. *)
Lemma normalize_rank {A} (t : tensor A) :
  normalize t = None <-> ndimension t <> 1 /\ ndimension t <> 2.
Proof.
  destruct t as [x|v|n rows|k]; simpl.
  - split; [intros _; split; discriminate|reflexivity].
  - split; [discriminate|intros [H _]; now contradiction H].
  - destruct (n =? 1); (split; [discriminate|intros [_ H]; now contradiction H]).
  - split; [intros _; split; discriminate|reflexivity].
Qed.

Lemma compute_conflict y_pred y to_onehot_y average :
  roc_auc y_pred y to_onehot_y true true average
  = (Raise (ValueError incompatible_msg), 0).
Proof. reflexivity. Qed.

Lemma compute_1d y_pred y to_onehot_y add_softmax add_sigmoid average v yb :
  add_softmax && add_sigmoid = false ->
  normalize y_pred = Some (Vec v) -> normalize y = Some yb ->
  roc_auc y_pred y to_onehot_y add_softmax add_sigmoid average
  = (labels <- label_entries yb ;;
     r <- _calculate labels (if add_sigmoid then map sigmoid v else v) ;;
     ret (Float r)).
Proof.
  intros Hf Hp Hy. unfold compute_roc_auc. rewrite Hf, Hp, Hy.
  now destruct add_sigmoid.
Qed.

Lemma compute_2d y_pred y to_onehot_y add_softmax add_sigmoid average n rows yb :
  add_softmax && add_sigmoid = false ->
  normalize y_pred = Some (Mat n rows) -> normalize y = Some yb ->
  roc_auc y_pred y to_onehot_y add_softmax add_sigmoid average
  = aggregate (prepared_labels one_hot to_onehot_y yb n) n
        (prepared_scores softmax sigmoid add_softmax add_sigmoid rows) average.
Proof.
  intros Hf Hp Hy. unfold compute_roc_auc. rewrite Hf, Hp, Hy.
  unfold prepared_labels, prepared_scores. now destruct add_sigmoid.
Qed.

(** The ways [compute_roc_auc] can go: one of the three validation errors
    before anything is computed, the single-channel path, or the aggregation. *)
Lemma compute_cases y_pred y to_onehot_y add_softmax add_sigmoid average :
  (exists msg,
      roc_auc y_pred y to_onehot_y add_softmax add_sigmoid average
      = (Raise (ValueError msg), 0)
      /\ (msg = incompatible_msg \/ msg = predictions_msg \/ msg = targets_msg))
  \/ (exists v yb,
         add_softmax && add_sigmoid = false
         /\ normalize y_pred = Some (Vec v) /\ normalize y = Some yb)
  \/ (exists n rows yb,
         add_softmax && add_sigmoid = false
         /\ normalize y_pred = Some (Mat n rows) /\ normalize y = Some yb).
Proof.
  unfold compute_roc_auc.
  destruct (add_softmax && add_sigmoid) eqn:Hf.
  { left. exists incompatible_msg. auto. }
  destruct (normalize y_pred) as [[v|n rows]|] eqn:Hp.
  - destruct (normalize y) as [yb|] eqn:Hy.
    + right. left. now exists v, yb.
    + left. exists targets_msg. auto.
  - destruct (normalize y) as [yb|] eqn:Hy.
    + right. right. now exists n, rows, yb.
    + left. exists targets_msg. auto.
  - left. exists predictions_msg. auto.
Qed.

Lemma label_entries_Raise_inv yb e c :
  label_entries yb = (Raise e, c) -> e = RuntimeError /\ c = 0.
Proof.
  destruct yb as [v|n [|r rows]]; simpl; try discriminate.
  now intros [= <- <-].
Qed.

Lemma label_entries_cost yb l c : label_entries yb = (Return l, c) -> c = 0.
Proof. destruct yb as [v|n [|r rows]]; simpl; try discriminate; now intros [= _ <-]. Qed.

Lemma flat_cost {A} (x : batch A) o c : flat x = (o, c) -> c = 0.
Proof. destruct x as [[|a v]|n rows]; simpl; now intros [= _ <-]. Qed.

Lemma flat_Raise_inv {A} (x : batch A) e c : flat x = (Raise e, c) -> e = TypeError.
Proof. destruct x as [[|a v]|n rows]; simpl; try discriminate; now intros [= <- _]. Qed.

Lemma transpose_cost {A} (x : batch A) o c : transpose x = (o, c) -> c = 0.
Proof. destruct x as [v|n rows]; simpl; now intros [= _ <-]. Qed.

Lemma transpose_Raise_inv {A} (x : batch A) e c :
  transpose x = (Raise e, c) -> e = IndexError.
Proof. destruct x as [v|n rows]; simpl; try discriminate; now intros [= <- _]. Qed.

Lemma np_average_Raise_inv a w e c :
  np_average a w = (Raise e, c) -> e = TypeError \/ e = ZeroDivisionError.
Proof.
  unfold np_average. destruct (negb _); [intros [= <- _]; now left|].
  destruct (_ =? 0)%Z; [intros [= <- _]; now right|discriminate].
Qed.

(** The single-channel path. *)
Lemma single_Raise_classify yb s e c :
  (labels <- label_entries yb ;; r <- _calculate labels s ;; ret (Float r))
  = (Raise e, c) ->
  (classify e = Some InvalidLabelError /\ c = 0) \/ classify e = None.
Proof.
  intros H.
  apply bind_Raise_inv in H as [H | (labels & c1 & c2 & Hl & H & ->)].
  - apply label_entries_Raise_inv in H as [-> _]. now right.
  - apply label_entries_cost in Hl as ->.
    apply bind_Raise_inv in H as [H | (r & c3 & c4 & _ & H & _)]; [|discriminate].
    apply calculate_Raise_classify in H as [[He ->]|He]; auto.
Qed.

Lemma single_Return_inv yb s v c :
  (labels <- label_entries yb ;; r <- _calculate labels s ;; ret (Float r))
  = (Return v, c) ->
  exists labels r, _calculate labels s = (Return r, c) /\ v = Float r.
Proof.
  intros H.
  apply bind_Return_inv in H as (labels & c1 & c2 & Hl & H & ->).
  apply label_entries_cost in Hl as ->.
  apply bind_Return_inv in H as (r & c3 & c4 & Hr & H & ->).
  injection H as <- <-. exists labels, r. split; [|reflexivity].
  rewrite Hr. f_equal. lia.
Qed.

End ComputeFacts.

(** ** The aggregation *)

Lemma Forall2_calculate_in_unit (ps : list (list Z * list Qc)) (aucs : list Qc) :
  Forall2 (fun p v => exists k, _calculate (fst p) (snd p) = (Return v, k)) ps aucs ->
  Forall in_unit aucs.
Proof.
  induction 1 as [|p v ps aucs (k & Hv) _ IH]; constructor; auto.
  eapply calculate_Return_in_unit; eauto.
Qed.

Lemma np_mean_in_unit (a : list Qc) :
  Forall in_unit a -> a <> [] -> exists x, np_mean a = Float x /\ in_unit x.
Proof.
  intros H Hne. destruct a as [|v a]; [contradiction|].
  eexists. split; [reflexivity|].
  apply sum_bounds in H as [H0 H1].
  apply div_in_unit; auto. apply Qc_of_nat_pos. discriminate.
Qed.

Lemma sumZ_binary_nonneg (y : list Z) : forallb is_binary y = true -> (0 <= sumZ y)%Z.
Proof.
  induction y as [|l y IH]; intros H; [reflexivity|].
  cbn [forallb] in H. apply andb_prop in H as [Hl H].
  rewrite sumZ_cons. specialize (IH H). unfold is_binary in Hl.
  apply orb_prop in Hl as [Hl|Hl]; apply Z.eqb_eq in Hl; lia.
Qed.

(** The weighted sum of values in [0,1] with non-negative weights. *)
Lemma weighted_sum_bounds (ps : list (list Z * list Qc)) (aucs : list Qc) :
  Forall2 (fun p v => exists k, _calculate (fst p) (snd p) = (Return v, k)) ps aucs ->
  let w := map (fun p => sumZ (fst p)) ps in
  (0 <= sumZ w)%Z
  /\ (0 <= sum (map (fun p => fst p * Qc_of_Z (snd p)) (combine aucs w)))%Qc
  /\ (sum (map (fun p => fst p * Qc_of_Z (snd p)) (combine aucs w))
      <= Qc_of_Z (sumZ w))%Qc.
Proof.
  induction 1 as [|p v ps aucs (k & Hv) _ IH]; cbn zeta.
  - repeat split; try apply Qcle_refl. reflexivity.
  - cbn zeta in IH. destruct IH as (Hw & H0 & H1).
    cbn [map combine fst snd]. rewrite sumZ_cons, sum_cons, Qc_of_Z_add.
    pose proof (sumZ_binary_nonneg _ (calculate_Return_binary _ _ _ _ Hv)) as Hp.
    destruct (calculate_Return_in_unit _ _ _ _ Hv) as [Hv0 Hv1].
    assert (Hq : (0 <= Qc_of_Z (sumZ (fst p)))%Qc)
      by (change 0%Qc with (Qc_of_Z 0); now apply Qc_of_Z_le).
    repeat split.
    + lia.
    + rewrite <- (Qcplus_0_l 0). apply Qcplus_le_compat; [|assumption].
      rewrite <- (Qcmult_0_l (Qc_of_Z (sumZ (fst p)))).
      now apply Qcmult_le_compat_r.
    + apply Qcplus_le_compat; [|assumption].
      rewrite <- (Qcmult_1_l (Qc_of_Z (sumZ (fst p)))) at 2.
      now apply Qcmult_le_compat_r.
Qed.

Lemma combine_fst_full {A B} (l1 : list A) (l2 : list B) :
  length (combine l1 l2) = length l1 -> map fst (combine l1 l2) = l1.
Proof.
  revert l2. induction l1 as [|a l1 IH]; intros [|b l2] H; simpl in *;
    try reflexivity; try discriminate.
  f_equal. apply IH. lia.
Qed.

Lemma np_average_in_unit (ty : list (list Z)) (tp : list (list Qc))
    (aucs : list Qc) (v : value) (c c' : nat) :
  mapM (fun p => _calculate (fst p) (snd p)) (combine ty tp) = (Return aucs, c) ->
  np_average aucs (map sumZ ty) = (Return v, c') ->
  exists x, v = Float x /\ in_unit x.
Proof.
  intros Hm Ha. unfold np_average in Ha.
  destruct (length aucs =? length (map sumZ ty)) eqn:El; [|discriminate].
  cbn [negb] in Ha. destruct (sumZ (map sumZ ty) =? 0)%Z eqn:Ez; [discriminate|].
  injection Ha as <- _. eexists. split; [reflexivity|].
  apply Nat.eqb_eq in El. rewrite length_map in El.
  rewrite (mapM_length _ _ _ _ Hm) in El.
  apply mapM_Return_inv in Hm. apply weighted_sum_bounds in Hm. cbn zeta in Hm.
  rewrite <- map_map, (combine_fst_full _ _ El) in Hm.
  destruct Hm as (Hw & H0 & H1). apply Z.eqb_neq in Ez.
  apply div_in_unit; auto.
  change 0%Qc with (Qc_of_Z 0). apply Qc_of_Z_lt. lia.
Qed.

Lemma aggregate_micro (y : batch Z) (n : nat) (P : list (list Qc)) :
  aggregate y n P (Some "micro"%string)
  = (fy <- flat y ;; r <- _calculate fy (concat P) ;; ret (Float r)).
Proof. reflexivity. Qed.

Lemma aggregate_per_class (y : batch Z) (n : nat) (P : list (list Qc))
    (average : option string) :
  match average with Some a => String.eqb a "micro" | None => false end = false ->
  aggregate y n P average
  = (ty <- transpose y ;;
     auc_values <- mapM (fun p => _calculate (fst p) (snd p))
                     (combine ty (transpose_rows n P)) ;;
     match average with
     | None => ret (FloatList auc_values)
     | Some a =>
         if String.eqb a "macro" then ret (np_mean auc_values)
         else if String.eqb a "weighted" then np_average auc_values (map sumZ ty)
         else raise (ValueError unsupported_msg)
     end).
Proof. intros H. unfold aggregate. now rewrite H. Qed.

Lemma not_micro (average : option string) :
  recognized average = false ->
  match average with Some a => String.eqb a "micro" | None => false end = false.
Proof.
  destruct average as [a|]; [|reflexivity]. unfold recognized.
  destruct (String.eqb a "micro"); [discriminate|reflexivity].
Qed.

(** Every returned number is in [0,1]; NaN is returned only as the macro
    mean of no class at all. *)
Lemma aggregate_Return_in_unit (y : batch Z) (n : nat) (P : list (list Qc))
    (average : option string) (v : value) (c : nat) :
  aggregate y n P average = (Return v, c) ->
  match v with
  | NaN => average = Some "macro"%string /\ c = 0
  | _ => value_in_unit v
  end.
Proof.
  destruct (match average with Some a => String.eqb a "micro" | None => false end) eqn:Em.
  - destruct average as [a|]; [|discriminate]. apply String.eqb_eq in Em. subst a.
    rewrite aggregate_micro. intros H.
    apply bind_Return_inv in H as (fy & c1 & c2 & _ & H & _).
    apply bind_Return_inv in H as (r & c3 & c4 & Hr & H & _).
    injection H as <- _. eapply calculate_Return_in_unit; eauto.
  - rewrite (aggregate_per_class _ _ _ _ Em). intros H.
    apply bind_Return_inv in H as (ty & c1 & c2 & Hty & H & ->).
    apply transpose_cost in Hty as ->.
    apply bind_Return_inv in H as (aucs & c3 & c4 & Hm & H & ->).
    pose proof (Forall2_calculate_in_unit _ _ (mapM_Return_inv _ _ _ _ Hm)) as Hu.
    destruct average as [a|].
    + destruct (String.eqb a "macro") eqn:Ea.
      * apply String.eqb_eq in Ea. subst a. injection H as <- <-.
        destruct aucs as [|x aucs].
        -- split; [reflexivity|].
           apply mapM_length in Hm as Hl. destruct (combine ty _); [|discriminate].
           injection Hm as <-. reflexivity.
        -- destruct (np_mean_in_unit (x :: aucs) Hu ltac:(discriminate)) as (z & -> & Hz).
           exact Hz.
      * destruct (String.eqb a "weighted"); [|discriminate].
        destruct (np_average_in_unit _ _ _ _ _ _ Hm H) as (z & -> & Hz). exact Hz.
    + injection H as <- _. exact Hu.
Qed.

(** ** The [average] argument *)

Lemma unrecognized_inv (average : option string) :
  recognized average = false ->
  exists a, average = Some a
            /\ String.eqb a "micro" = false
            /\ String.eqb a "macro" = false
            /\ String.eqb a "weighted" = false.
Proof.
  destruct average as [a|]; [|discriminate]. unfold recognized. intros H.
  apply orb_false_elim in H as [H Hw]. apply orb_false_elim in H as [Hmi Hma].
  now exists a.
Qed.

Lemma aggregate_unrecognized (y : batch Z) (n : nat) (P : list (list Qc))
    (average : option string) (v : value) (c : nat) :
  recognized average = false ->
  aggregate y n P None = (Return v, c) ->
  aggregate y n P average = (Raise (ValueError unsupported_msg), c).
Proof.
  intros Hr H. rewrite (aggregate_per_class _ _ _ _ (not_micro _ Hr)).
  rewrite (aggregate_per_class _ _ _ None eq_refl) in H.
  apply unrecognized_inv in Hr as (a & -> & _ & Hma & Hw). rewrite Hma, Hw.
  destruct (transpose y) as [[ty|e] c1]; [|discriminate]. cbn [bind] in *.
  destruct (mapM _ _) as [[aucs|e] c2]; [|discriminate]. cbn [bind ret raise] in *.
  now injection H as _ <-.
Qed.

Lemma aggregate_unrecognized_fails (y : batch Z) (n : nat) (P : list (list Qc))
    (average : option string) :
  recognized average = false ->
  exists e, run (aggregate y n P average) = Raise e.
Proof.
  intros Hr. rewrite (aggregate_per_class _ _ _ _ (not_micro _ Hr)).
  apply unrecognized_inv in Hr as (a & -> & _ & Hma & Hw). rewrite Hma, Hw.
  destruct (transpose y) as [[ty|e] c1]; [|now exists e]. cbn [bind].
  destruct (mapM _ _) as [[aucs|e] c2]; [|now exists e]. cbn [bind raise].
  now eexists.
Qed.

Lemma aggregate_Raise_classify (y : batch Z) (n : nat) (P : list (list Qc))
    (average : option string) (e : exn) (c : nat) :
  aggregate y n P average = (Raise e, c) ->
  classify e = Some InvalidLabelError
  \/ classify e = Some UnsupportedAverageError
  \/ classify e = None.
Proof.
  destruct (match average with Some a => String.eqb a "micro" | None => false end) eqn:Em.
  - destruct average as [a|]; [|discriminate]. apply String.eqb_eq in Em. subst a.
    rewrite aggregate_micro. intros H.
    apply bind_Raise_inv in H as [H | (fy & c1 & c2 & _ & H & _)].
    + apply flat_Raise_inv in H as ->. auto.
    + apply bind_Raise_inv in H as [H | (r & c3 & c4 & _ & H & _)]; [|discriminate].
      apply calculate_Raise_classify in H as [[He _]|He]; auto.
  - rewrite (aggregate_per_class _ _ _ _ Em). intros H.
    apply bind_Raise_inv in H as [H | (ty & c1 & c2 & _ & H & _)].
    + apply transpose_Raise_inv in H as ->. auto.
    + apply bind_Raise_inv in H as [H | (aucs & c3 & c4 & _ & H & _)].
      * apply mapM_Raise_inv in H as (p & k & _ & H).
        apply calculate_Raise_classify in H as [[He _]|He]; auto.
      * destruct average as [a|]; [|discriminate].
        destruct (String.eqb a "macro"); [discriminate|].
        destruct (String.eqb a "weighted").
        -- apply np_average_Raise_inv in H as [-> | ->]; auto.
        -- injection H as <- _. auto.
Qed.

Lemma aggregate_micro_invalid (y : batch Z) (n : nat) (P : list (list Qc))
    (e : exn) (c : nat) :
  aggregate y n P (Some "micro"%string) = (Raise e, c) ->
  classify e = Some InvalidLabelError -> c = 0.
Proof.
  rewrite aggregate_micro. intros H He.
  apply bind_Raise_inv in H as [H | (fy & c1 & c2 & Hf & H & ->)].
  - now apply flat_cost in H.
  - apply flat_cost in Hf as ->.
    apply bind_Raise_inv in H as [H | (r & c3 & c4 & _ & H & _)]; [|discriminate].
    apply calculate_Raise_classify in H as [[_ ->]|H]; [reflexivity|congruence].
Qed.

Lemma aggregate_unsupported_inv (y : batch Z) (n : nat) (P : list (list Qc))
    (average : option string) (e : exn) (c : nat) :
  aggregate y n P average = (Raise e, c) ->
  classify e = Some UnsupportedAverageError ->
  exists l, aggregate y n P None = (Return (FloatList l), c).
Proof.
  destruct (match average with Some a => String.eqb a "micro" | None => false end) eqn:Em.
  - destruct average as [a|]; [|discriminate]. apply String.eqb_eq in Em. subst a.
    rewrite aggregate_micro. intros H He. exfalso.
    apply bind_Raise_inv in H as [H | (fy & c1 & c2 & _ & H & _)].
    + apply flat_Raise_inv in H as ->. discriminate.
    + apply bind_Raise_inv in H as [H | (r & c3 & c4 & _ & H & _)]; [|discriminate].
      apply calculate_Raise_classify in H as [[H _]|H]; congruence.
  - rewrite (aggregate_per_class _ _ _ _ Em), (aggregate_per_class _ _ _ None eq_refl).
    intros H He.
    destruct (transpose y) as [[ty|e'] c1] eqn:Et.
    2:{ exfalso. injection H as -> _. apply transpose_Raise_inv in Et as ->. discriminate. }
    cbn [bind] in *.
    destruct (mapM _ _) as [[aucs|e'] c2] eqn:Ea.
    2:{ exfalso. injection H as -> _. apply mapM_Raise_inv in Ea as (p & k & _ & Ea).
        apply calculate_Raise_classify in Ea as [[Ea _]|Ea]; congruence. }
    cbn [bind ret] in *. exists aucs.
    destruct average as [a|]; [|discriminate].
    destruct (String.eqb a "macro"); [discriminate|].
    destruct (String.eqb a "weighted").
    + exfalso. destruct (np_average aucs (map sumZ ty)) as [[w|e'] c3] eqn:En;
        [discriminate|].
      injection H as -> _. apply np_average_Raise_inv in En as [-> | ->]; discriminate.
    + cbn [raise] in H. now injection H as _ <-.
Qed.

Section AverageArgument.
Variable one_hot : batch Z -> nat -> list (list Z).
Variable softmax : list Qc -> list Qc.
Variable sigmoid : Qc -> Qc.

Local Notation "'roc_auc'" := (compute_roc_auc one_hot softmax sigmoid).

(** With single-channel scores, [average] is never looked at. *)
Lemma compute_1d_ignores_average y_pred y to_onehot_y add_softmax add_sigmoid s
    (average average' : option string) :
  normalize y_pred = Some (Vec s) ->
  roc_auc y_pred y to_onehot_y add_softmax add_sigmoid average
  = roc_auc y_pred y to_onehot_y add_softmax add_sigmoid average'.
Proof.
  intros Hp. unfold compute_roc_auc. rewrite Hp.
  destruct (add_softmax && add_sigmoid); [reflexivity|].
  destruct (normalize y); [|reflexivity]. now destruct add_sigmoid.
Qed.

Lemma compute_2d_unrecognized y_pred y to_onehot_y add_softmax add_sigmoid n rows
    (average : option string) :
  recognized average = false ->
  normalize y_pred = Some (Mat n rows) ->
  (exists e, run (roc_auc y_pred y to_onehot_y add_softmax add_sigmoid average)
             = Raise e)
  /\ (forall v c,
         roc_auc y_pred y to_onehot_y add_softmax add_sigmoid None = (Return v, c) ->
         roc_auc y_pred y to_onehot_y add_softmax add_sigmoid average
         = (Raise (ValueError unsupported_msg), c)).
Proof.
  intros Hr Hp. unfold compute_roc_auc. rewrite Hp.
  destruct (add_softmax && add_sigmoid);
    [split; [now eexists | discriminate]|].
  destruct (normalize y) as [yb|];
    [|split; [now eexists | discriminate]].
  destruct add_sigmoid; cbn [map_batch]; split;
    auto using aggregate_unrecognized_fails;
    intros v c H; eapply aggregate_unrecognized; eauto.
Qed.

Lemma compute_Raise_validation y_pred y to_onehot_y add_softmax add_sigmoid average e c :
  roc_auc y_pred y to_onehot_y add_softmax add_sigmoid average = (Raise e, c) ->
  classify e = Some ShapeError \/ classify e = Some ConflictingTransformError ->
  c = 0.
Proof.
  intros H He.
  destruct (compute_cases one_hot softmax sigmoid y_pred y
              to_onehot_y add_softmax add_sigmoid average)
    as [(msg & E & _) | [(s & yb & Hf & Hp & Hy) | (n & rows & yb & Hf & Hp & Hy)]].
  - rewrite E in H. now injection H as _ <-.
  - rewrite (compute_1d _ _ _ _ _ _ _ _ _ _ _ Hf Hp Hy) in H.
    apply single_Raise_classify in H as [[H _]|H]; destruct He; congruence.
  - rewrite (compute_2d _ _ _ _ _ _ _ _ _ _ _ _ Hf Hp Hy) in H.
    apply aggregate_Raise_classify in H as [H|[H|H]]; destruct He; congruence.
Qed.

Lemma compute_Raise_invalid_label y_pred y to_onehot_y add_softmax add_sigmoid
    average e c :
  roc_auc y_pred y to_onehot_y add_softmax add_sigmoid average = (Raise e, c) ->
  classify e = Some InvalidLabelError ->
  (exists s, normalize y_pred = Some (Vec s)) \/ average = Some "micro"%string ->
  c = 0.
Proof.
  intros H He Hpath.
  destruct (compute_cases one_hot softmax sigmoid y_pred y
              to_onehot_y add_softmax add_sigmoid average)
    as [(msg & E & _) | [(s & yb & Hf & Hp & Hy) | (n & rows & yb & Hf & Hp & Hy)]].
  - rewrite E in H. now injection H as _ <-.
  - rewrite (compute_1d _ _ _ _ _ _ _ _ _ _ _ Hf Hp Hy) in H.
    apply single_Raise_classify in H as [[_ H]|H]; congruence.
  - rewrite (compute_2d _ _ _ _ _ _ _ _ _ _ _ _ Hf Hp Hy) in H.
    destruct Hpath as [(s & Hs)| ->]; [congruence|].
    eapply aggregate_micro_invalid; eauto.
Qed.

Lemma compute_Raise_unsupported y_pred y to_onehot_y add_softmax add_sigmoid
    average e c :
  roc_auc y_pred y to_onehot_y add_softmax add_sigmoid average = (Raise e, c) ->
  classify e = Some UnsupportedAverageError ->
  exists l,
    roc_auc y_pred y to_onehot_y add_softmax add_sigmoid None
    = (Return (FloatList l), c).
Proof.
  intros H He.
  destruct (compute_cases one_hot softmax sigmoid y_pred y
              to_onehot_y add_softmax add_sigmoid average)
    as [(msg & E & Hm) | [(s & yb & Hf & Hp & Hy) | (n & rows & yb & Hf & Hp & Hy)]].
  - rewrite E in H. injection H as <- _.
    destruct Hm as [-> | [-> | ->]]; discriminate.
  - rewrite (compute_1d _ _ _ _ _ _ _ _ _ _ _ Hf Hp Hy) in H.
    apply single_Raise_classify in H as [[H _]|H]; congruence.
  - rewrite (compute_2d _ _ _ _ _ _ _ _ _ _ _ _ Hf Hp Hy) in H.
    rewrite (compute_2d _ _ _ _ _ _ _ _ _ _ _ _ Hf Hp Hy).
    eapply aggregate_unsupported_inv; eauto.
Qed.

End AverageArgument.

(** *** Claim C3 *)

(** C3 as stated fails: with single-channel scores an unrecognized
    [average] is accepted and the AUC is returned. *)
Lemma C3_counterexample :
  ~ (forall (one_hot : batch Z -> nat -> list (list Z))
            (softmax : list Qc -> list Qc) (sigmoid : Qc -> Qc)
            (y_pred : tensor Qc) (y : tensor Z)
            (to_onehot_y add_softmax add_sigmoid : bool) (average : option string),
        recognized average = false ->
        exists e,
          run (compute_roc_auc one_hot softmax sigmoid y_pred y
                 to_onehot_y add_softmax add_sigmoid average) = Raise e
          /\ classify e = Some UnsupportedAverageError).
Proof.
  intros H.
  destruct (H (fun _ _ => []) (fun r => r) (fun x => x)
              (T1 [frac 1 10; frac 4 10; frac 35 100; frac 8 10])
              (T1 [0; 0; 1; 1]%Z) false false false (Some "median"%string) eq_refl)
    as (e & He & _).
  cbn [compute_roc_auc andb normalize label_entries] in He.
  rewrite bind_ret_l, calc_doc in He. discriminate.
Qed.

(** C3, amended. With scores of rank 2 (more than one column) an [average]
    other than micro, macro, weighted and None never yields a value: the
    call raises, and it raises ValueError 'unsupported average method.'
    whenever the per-class computation (the same call with average None)
    succeeds, after the same comparisons.  With single-channel scores
    [average] is ignored. *)
Theorem C3_unsupported_average
    (one_hot : batch Z -> nat -> list (list Z))
    (softmax : list Qc -> list Qc) (sigmoid : Qc -> Qc)
    (y_pred : tensor Qc) (y : tensor Z)
    (to_onehot_y add_softmax add_sigmoid : bool) (average : option string) :
  recognized average = false ->
  (forall n rows,
      normalize y_pred = Some (Mat n rows) ->
      (exists e,
          run (compute_roc_auc one_hot softmax sigmoid y_pred y
                 to_onehot_y add_softmax add_sigmoid average) = Raise e)
      /\ (forall v c,
             compute_roc_auc one_hot softmax sigmoid y_pred y
               to_onehot_y add_softmax add_sigmoid None = (Return v, c) ->
             compute_roc_auc one_hot softmax sigmoid y_pred y
               to_onehot_y add_softmax add_sigmoid average
             = (Raise (ValueError unsupported_msg), c)))
  /\ (forall s,
         normalize y_pred = Some (Vec s) ->
         compute_roc_auc one_hot softmax sigmoid y_pred y
           to_onehot_y add_softmax add_sigmoid average
         = compute_roc_auc one_hot softmax sigmoid y_pred y
             to_onehot_y add_softmax add_sigmoid None)
  /\ classify (ValueError unsupported_msg) = Some UnsupportedAverageError.
Proof.
  intros Hr. split; [|split].
  - intros n rows Hp. eapply compute_2d_unrecognized; eauto.
  - intros s Hp. eapply compute_1d_ignores_average; eauto.
  - reflexivity.
Qed.

Lemma C3_witness :
  compute_roc_auc (fun _ _ => []) (fun r => r) (fun x => x)
    (T2 2 [[frac 1 2; frac 1 3]; [frac 1 4; frac 1 4]; [frac 3 4; frac 1 5]])
    (T2 2 [[1; 0]; [0; 1]; [1; 0]]%Z) false false false (Some "median"%string)
  = (Raise (ValueError unsupported_msg), 4).
Proof.
  assert (E : exists l,
             compute_roc_auc (fun _ _ => []) (fun r => r) (fun x => x)
               (T2 2 [[frac 1 2; frac 1 3]; [frac 1 4; frac 1 4]; [frac 3 4; frac 1 5]])
               (T2 2 [[1; 0]; [0; 1]; [1; 0]]%Z) false false false None
             = (Return (FloatList l), 4))
    by (eexists; vm_compute; reflexivity).
  destruct E as [l E].
  exact (proj2 (proj1 (C3_unsupported_average (fun _ _ => []) (fun r => r) (fun x => x)
                         (T2 2 [[frac 1 2; frac 1 3]; [frac 1 4; frac 1 4];
                                [frac 3 4; frac 1 5]])
                         (T2 2 [[1; 0]; [0; 1]; [1; 0]]%Z) false false false
                         (Some "median"%string) eq_refl)
                  2 [[frac 1 2; frac 1 3]; [frac 1 4; frac 1 4]; [frac 3 4; frac 1 5]]
                  eq_refl) _ _ E).
Defined.

(** ** Matrices: rows, columns and flattening *)

Section Matrices.
Context {A : Type}.

Lemma cons_column_length (r : list A) (m : list (list A)) :
  length (cons_column r m) = Nat.min (length r) (length m).
Proof.
  revert m. induction r as [|x r IH]; intros [|c m]; simpl; auto.
Qed.

Lemma transpose_rows_length (n : nat) (rows : list (list A)) :
  rectangular n rows -> length (transpose_rows n rows) = n.
Proof.
  induction 1 as [|r rows Hr _ IH]; simpl.
  - apply repeat_length.
  - rewrite cons_column_length, IH, Hr. apply Nat.min_id.
Qed.

Lemma cons_column_map_seq (d : A) (r : list A) (f : nat -> list A) (k n : nat) :
  length r = n ->
  cons_column r (map f (seq k n)) = map (fun c => nth (c - k) r d :: f c) (seq k n).
Proof.
  revert k n. induction r as [|x r IH]; intros k [|n] H; simpl in *;
    try reflexivity; try discriminate.
  rewrite Nat.sub_diag. f_equal.
  rewrite (IH (S k) n) by lia. apply map_ext_in. intros c Hc.
  apply in_seq in Hc. replace (c - k) with (S (c - S k)) by lia. reflexivity.
Qed.

(** On a rectangular matrix, [transpose] yields its columns. *)
Lemma transpose_rows_columns (d : A) (n : nat) (rows : list (list A)) :
  rectangular n rows -> transpose_rows n rows = columns d n rows.
Proof.
  unfold columns, column. induction 1 as [|r rows Hr _ IH]; simpl.
  - generalize 0. induction n as [|n IHn]; intros k; simpl; [reflexivity|].
    f_equal. apply IHn.
  - rewrite IH, (cons_column_map_seq d) by assumption.
    apply map_ext. intros c. now rewrite Nat.sub_0_r.
Qed.

Lemma column_length (d : A) (rows : list (list A)) (c : nat) :
  length (column d rows c) = length rows.
Proof. apply length_map. Qed.

Lemma columns_length (d : A) (n : nat) (rows : list (list A)) :
  length (columns d n rows) = n.
Proof. unfold columns. now rewrite length_map, length_seq. Qed.

Lemma concat_cons_column (r : list A) (m : list (list A)) :
  length r = length m ->
  Permutation (concat (cons_column r m)) (r ++ concat m).
Proof.
  revert m. induction r as [|x r IH]; intros [|c m] H; simpl in *;
    try discriminate; [constructor|].
  constructor. rewrite (IH m) by lia.
  rewrite !app_assoc. apply Permutation_app_tail, Permutation_app_comm.
Qed.

(** The row-major and the column-major flattening hold the same entries. *)
Lemma concat_transpose_rows (n : nat) (rows : list (list A)) :
  rectangular n rows ->
  Permutation (concat (transpose_rows n rows)) (concat rows).
Proof.
  induction 1 as [|r rows Hr Hrows IH]; simpl.
  - induction n as [|n IHn]; simpl; auto.
  - rewrite concat_cons_column
      by (rewrite transpose_rows_length; auto).
    now apply Permutation_app_head.
Qed.

Lemma concat_rectangular_length (n : nat) (rows : list (list A)) :
  rectangular n rows -> length (concat rows) = length rows * n.
Proof.
  induction 1 as [|r rows Hr _ IH]; simpl; [reflexivity|].
  rewrite length_app, IH, Hr. reflexivity.
Qed.

(** Entry (b, c) of a rectangular matrix is entry b * n + c of its
    flattening. *)
Lemma concat_rectangular_nth (n : nat) (rows : list (list A)) (b c : nat) :
  rectangular n rows -> c < n ->
  nth_error (concat rows) (b * n + c) = nth_error (nth b rows []) c.
Proof.
  intros H Hc. revert b. induction H as [|r rows Hr _ IH]; intros b; simpl.
  - destruct b; simpl; now rewrite !nth_error_nil.
  - destruct b as [|b]; simpl.
    + apply nth_error_app1. lia.
    + rewrite nth_error_app2 by lia.
      replace (n + b * n + c - length r) with (b * n + c) by lia. apply IH.
Qed.

Lemma Permutation_filter (f : A -> bool) (l l' : list A) :
  Permutation l l' -> Permutation (filter f l) (filter f l').
Proof.
  induction 1 as [|x l l' _ IH|x y l|l l' l'' _ IH1 _ IH2]; simpl.
  - constructor.
  - destruct (f x); auto.
  - destruct (f x), (f y); auto. constructor.
  - now transitivity (filter f l').
Qed.

Lemma forallb_Permutation (f : A -> bool) (l l' : list A) :
  Permutation l l' -> forallb f l = forallb f l'.
Proof.
  induction 1 as [|x l l' _ IH|x y l|l l' l'' _ IH1 _ IH2]; simpl.
  - reflexivity.
  - now rewrite IH.
  - now destruct (f x), (f y).
  - congruence.
Qed.
End Matrices.

Section PairMatrices.
Context {A B : Type}.

Lemma combine_app_same (a b : list A) (a' b' : list B) :
  length a = length a' ->
  combine (a ++ b) (a' ++ b') = combine a a' ++ combine b b'.
Proof.
  revert a'. induction a as [|x a IH]; intros [|x' a'] H; simpl in *;
    try discriminate; [reflexivity|].
  f_equal. apply IH. lia.
Qed.

Lemma combine_concat (n : nat) (Y : list (list A)) (P : list (list B)) :
  rectangular n Y -> rectangular n P -> length Y = length P ->
  combine (concat Y) (concat P) = concat (zip_rows Y P).
Proof.
  unfold zip_rows. intros HY. revert P.
  induction HY as [|r Y Hr _ IH]; intros [|r' P] HP Hl; simpl in *;
    try discriminate; [reflexivity|].
  inversion HP as [|? ? Hr' HP']; subst.
  rewrite combine_app_same by congruence. f_equal. apply IH; auto.
Qed.

Lemma cons_column_zip (a : list A) (b : list B) (M1 : list (list A)) (M2 : list (list B)) :
  cons_column (combine a b) (zip_rows M1 M2)
  = zip_rows (cons_column a M1) (cons_column b M2).
Proof.
  unfold zip_rows. revert b M1 M2.
  induction a as [|x a IH]; intros [|x' b] [|c M1] [|c' M2]; simpl;
    try reflexivity.
  f_equal. apply IH.
Qed.

Lemma transpose_rows_zip (n : nat) (Y : list (list A)) (P : list (list B)) :
  length Y = length P ->
  transpose_rows n (zip_rows Y P) = zip_rows (transpose_rows n Y) (transpose_rows n P).
Proof.
  revert P. induction Y as [|r Y IH]; intros [|r' P] Hl;
    try discriminate.
  - unfold zip_rows. cbn. induction n as [|n IHn]; cbn; [reflexivity|].
    now rewrite <- IHn.
  - change (zip_rows (r :: Y) (r' :: P)) with (combine r r' :: zip_rows Y P).
    cbn [transpose_rows]. cbn [length] in Hl. rewrite IH by lia.
    apply cons_column_zip.
Qed.

Lemma zip_rows_rectangular (n : nat) (Y : list (list A)) (P : list (list B)) :
  rectangular n Y -> rectangular n P -> rectangular n (zip_rows Y P).
Proof.
  unfold zip_rows, rectangular. intros HY. revert P.
  induction HY as [|r Y Hr _ IH]; intros [|r' P] HP; simpl; constructor.
  - inversion HP; subst. rewrite length_combine. lia.
  - inversion HP; subst. now apply IH.
Qed.

Lemma combine_map_map {C} (f : C -> A) (g : C -> B) (l : list C) :
  combine (map f l) (map g l) = map (fun x => (f x, g x)) l.
Proof. induction l as [|x l IH]; simpl; [reflexivity|]. now rewrite IH. Qed.

Lemma combine_map_fst (l1 : list A) (l2 : list B) :
  length l1 <= length l2 -> map fst (combine l1 l2) = l1.
Proof.
  revert l2. induction l1 as [|a l1 IH]; intros [|b l2] H; simpl in *;
    try reflexivity; try lia.
  f_equal. apply IH. lia.
Qed.
End PairMatrices.

(** ** [_calculate] sees only the multiset of (label, score) pairs *)

Lemma select_Permutation (l : Z) (y y' : list Z) (s s' : list Qc) :
  Permutation (combine y s) (combine y' s') ->
  Permutation (select l y s) (select l y' s').
Proof. intros H. unfold select. now apply Permutation_map, Permutation_filter. Qed.

Lemma calculate_Permutation (y y' : list Z) (s s' : list Qc) :
  length y = length s -> length y' = length s' ->
  Permutation (combine y s) (combine y' s') ->
  _calculate y s = _calculate y' s'.
Proof.
  intros Hl Hl' H.
  assert (Hb : forallb is_binary y = forallb is_binary y').
  { rewrite <- (combine_map_fst y s), <- (combine_map_fst y' s') by lia.
    apply forallb_Permutation. now apply Permutation_map. }
  destruct (forallb is_binary y) eqn:E.
  - rewrite !calculate_binary by (auto; lia).
    apply quotient_Permutation; now apply select_Permutation.
  - now rewrite !calculate_invalid.
Qed.

Lemma columns_rectangular {A} (d : A) (n : nat) (rows : list (list A)) :
  rectangular (length rows) (columns d n rows).
Proof.
  unfold rectangular, columns. apply Forall_forall. intros c Hc.
  apply in_map_iff in Hc as (i & <- & _). apply column_length.
Qed.

(** Row-major and column-major flattening give the same computation. *)
Lemma calculate_flat_columns (n : nat) (Y : list (list Z)) (P : list (list Qc)) :
  rectangular n Y -> rectangular n P -> length Y = length P ->
  _calculate (concat Y) (concat P)
  = _calculate (concat (columns 0%Z n Y)) (concat (columns 0%Qc n P)).
Proof.
  intros HY HP Hl.
  pose proof (columns_rectangular 0%Z n Y) as HcY.
  pose proof (columns_rectangular 0%Qc n P) as HcP. rewrite <- Hl in HcP.
  apply calculate_Permutation.
  - rewrite (concat_rectangular_length n Y HY), (concat_rectangular_length n P HP). lia.
  - rewrite (concat_rectangular_length _ _ HcY), (concat_rectangular_length _ _ HcP).
    now rewrite !columns_length.
  - rewrite (combine_concat n) by assumption.
    rewrite (combine_concat (length Y)) by (rewrite ?columns_length; auto).
    rewrite <- (transpose_rows_columns 0%Z n Y HY).
    rewrite <- (transpose_rows_columns 0%Qc n P HP).
    rewrite <- transpose_rows_zip by assumption.
    symmetry. apply concat_transpose_rows. now apply zip_rows_rectangular.
Qed.

Lemma mapM_map_list {A B C} (f : B -> M C) (g : A -> B) (l : list A) :
  mapM f (map g l) = mapM (fun x => f (g x)) l.
Proof. induction l as [|x l IH]; [reflexivity|]. cbn [map mapM]. now rewrite IH. Qed.

Lemma sumZ_fold_right (l : list Z) : sumZ l = fold_right Z.add 0%Z l.
Proof. induction l as [|x l IH]; [reflexivity|]. rewrite sumZ_cons, IH. reflexivity. Qed.

Lemma sumZ_binary_pos (y : list Z) :
  forallb is_binary y = true -> In 1%Z y -> (0 < sumZ y)%Z.
Proof.
  induction y as [|l y IH]; intros Hb H; [contradiction|].
  rewrite sumZ_cons. cbn [forallb] in Hb. apply andb_prop in Hb as [Hl Hb].
  pose proof (sumZ_binary_nonneg y Hb). destruct H as [-> | H]; [lia|].
  specialize (IH Hb H). unfold is_binary in Hl.
  apply orb_prop in Hl as [Hl|Hl]; apply Z.eqb_eq in Hl; lia.
Qed.

Lemma sumZ_map_pos {A} (k : A -> Z) (l : list A) :
  (forall x, In x l -> (0 < k x)%Z) -> l <> [] -> (0 < sumZ (map k l))%Z.
Proof.
  induction l as [|x l IH]; intros H Hne; [contradiction|].
  cbn [map]. rewrite sumZ_cons.
  pose proof (H x (or_introl eq_refl)).
  destruct l as [|x' l]; [cbn; lia|].
  assert (0 < sumZ (map k (x' :: l)))%Z; [|lia].
  apply IH; [|discriminate]. intros z Hz. apply H. now right.
Qed.

(** ** The aggregates *)

Section Aggregates.
Variable one_hot : batch Z -> nat -> list (list Z).
Variable softmax : list Qc -> list Qc.
Variable sigmoid : Qc -> Qc.

Local Notation "'roc_auc'" := (compute_roc_auc one_hot softmax sigmoid).

(** The per-class values on a rectangular label and score matrix whose
    columns each hold a 1 and a 0. *)
Lemma per_class_values (n : nat) (Y : list (list Z)) (P : list (list Qc)) :
  rectangular n Y -> rectangular n P -> length P = length Y ->
  (forall i, i < n ->
             Forall (fun l => l = 0%Z \/ l = 1%Z) (column 0%Z Y i)
             /\ In 1%Z (column 0%Z Y i) /\ In 0%Z (column 0%Z Y i)) ->
  mapM (fun p => _calculate (fst p) (snd p))
    (combine (transpose_rows n Y) (transpose_rows n P))
  = (Return (map (fun i => binary_auc (column 0%Z Y i) (column 0%Qc P i)) (seq 0 n)),
     list_sum (map (fun i => length (pos (column 0%Z Y i))
                             * length (neg (column 0%Z Y i))) (seq 0 n))).
Proof.
  intros HY HP Hl Hc.
  rewrite (transpose_rows_columns 0%Z n Y HY), (transpose_rows_columns 0%Qc n P HP).
  unfold columns. rewrite combine_map_map, mapM_map_list. cbn [fst snd].
  apply mapM_cost. intros i Hi. apply in_seq in Hi.
  destruct (Hc i ltac:(lia)) as (Hb & H1 & H0).
  apply calculate_defined; auto.
  - now apply Forall_is_binary.
  - rewrite !column_length. lia.
Qed.

(** *** Claim C5 *)

(** C5. On a rank 2 input whose label matrix (after the optional one-hot
    step) and score matrix (after the optional transforms) are rectangular
    with the same n >= 1 columns and the same rows, every label column
    holding 0/1 values with at least one 1 and one 0, average weighted
    returns the sum over the classes of auc_i * positive_count_i divided by
    the sum of the positive_count_i, where auc_i is what [_calculate]
    returns on column i and positive_count_i is the sum of label column i. *)
Theorem C5_weighted_average
    (y_pred : tensor Qc) (y : tensor Z) (to_onehot_y add_softmax add_sigmoid : bool)
    (n : nat) (rows : list (list Qc)) (yb : batch Z) (Y : list (list Z)) :
  add_softmax && add_sigmoid = false ->
  normalize y_pred = Some (Mat n rows) ->
  normalize y = Some yb ->
  prepared_labels one_hot to_onehot_y yb n = Mat n Y ->
  let P := prepared_scores softmax sigmoid add_softmax add_sigmoid rows in
  rectangular n Y -> rectangular n P -> length P = length Y ->
  n <> 0 ->
  (forall i, i < n ->
             Forall (fun l => l = 0%Z \/ l = 1%Z) (column 0%Z Y i)
             /\ In 1%Z (column 0%Z Y i) /\ In 0%Z (column 0%Z Y i)) ->
  run (roc_auc y_pred y to_onehot_y add_softmax add_sigmoid (Some "weighted"%string))
  = Return (Float (weighted_mean n
                     (fun i => binary_auc (column 0%Z Y i) (column 0%Qc P i))
                     (fun i => sumZ (column 0%Z Y i))))
  /\ (forall i, i < n ->
                run (_calculate (column 0%Z Y i) (column 0%Qc P i))
                = Return (binary_auc (column 0%Z Y i) (column 0%Qc P i))).
Proof.
  intros Hf Hp Hy HY P HrY HrP Hl Hn Hc. split.
  - rewrite (compute_2d _ _ _ _ _ _ _ _ _ _ _ _ Hf Hp Hy), HY. fold P.
    rewrite (aggregate_per_class _ _ _ (Some "weighted"%string) eq_refl).
    cbn [transpose]. rewrite bind_ret_l.
    rewrite (per_class_values n Y P HrY HrP Hl Hc), bind_Return.
    cbn [String.eqb Ascii.eqb Bool.eqb]. unfold run. cbn [fst].
    rewrite (transpose_rows_columns 0%Z n Y HrY).
    unfold np_average, columns.
    rewrite !length_map, Nat.eqb_refl. cbn [negb].
    rewrite map_map.
    assert (Hpos : (0 < sumZ (map (fun i => sumZ (column 0%Z Y i)) (seq 0 n)))%Z).
    { apply sumZ_map_pos.
      - intros i Hi. apply in_seq in Hi. destruct (Hc i ltac:(lia)) as (Hb & H1 & _).
        apply sumZ_binary_pos; auto. now apply Forall_is_binary.
      - destruct n; [contradiction|discriminate]. }
    destruct (Z.eqb_spec (sumZ (map (fun i => sumZ (column 0%Z Y i)) (seq 0 n))) 0);
      [lia|].
    cbn [ret fst]. unfold weighted_mean.
    rewrite combine_map_map, map_map. cbn [fst snd].
    now rewrite sum_fold_right, sumZ_fold_right.
  - intros i Hi. destruct (Hc i Hi) as (Hb & H1 & H0).
    rewrite calculate_defined; auto.
    + now apply Forall_is_binary.
    + rewrite !column_length. lia.
Qed.

(** *** Claim C6 *)

(** C6. On a rank 2 input, average micro is the single [_calculate] on
    the row by row flattening of the label matrix and of the score matrix
    (after the optional one-hot step and transforms).  When the two are
    rectangular of the same shape, entry (b, c) of either sits at position
    b * n + c of its flattening, and the computation is the same as
    [_calculate] on the concatenation of the label columns against the
    concatenation of the score columns. *)
Theorem C6_micro_average
    (y_pred : tensor Qc) (y : tensor Z) (to_onehot_y add_softmax add_sigmoid : bool)
    (n m : nat) (rows : list (list Qc)) (yb : batch Z) (Y : list (list Z)) :
  add_softmax && add_sigmoid = false ->
  normalize y_pred = Some (Mat n rows) ->
  normalize y = Some yb ->
  prepared_labels one_hot to_onehot_y yb n = Mat m Y ->
  let P := prepared_scores softmax sigmoid add_softmax add_sigmoid rows in
  roc_auc y_pred y to_onehot_y add_softmax add_sigmoid (Some "micro"%string)
  = (r <- _calculate (concat Y) (concat P) ;; ret (Float r))
  /\ (rectangular n Y -> rectangular n P -> length Y = length P ->
      length (concat Y) = length Y * n
      /\ length (concat P) = length Y * n
      /\ (forall b c, c < n ->
             nth_error (concat Y) (b * n + c) = nth_error (nth b Y []) c
             /\ nth_error (concat P) (b * n + c) = nth_error (nth b P []) c)
      /\ _calculate (concat Y) (concat P)
         = _calculate (concat (columns 0%Z n Y)) (concat (columns 0%Qc n P))).
Proof.
  intros Hf Hp Hy HY P. split.
  - rewrite (compute_2d _ _ _ _ _ _ _ _ _ _ _ _ Hf Hp Hy), HY. fold P.
    rewrite aggregate_micro. cbn [flat]. now rewrite bind_ret_l.
  - intros HrY HrP Hl. repeat split.
    + now apply concat_rectangular_length.
    + rewrite Hl. now apply concat_rectangular_length.
    + now apply concat_rectangular_nth.
    + now apply concat_rectangular_nth.
    + now apply calculate_flat_columns.
Qed.

End Aggregates.

Lemma C5_witness :
  let Y := [[1; 0]; [0; 1]; [1; 0]]%Z in
  let P := [[frac 1 2; frac 1 3]; [frac 1 4; frac 1 4]; [frac 3 4; frac 1 5]] in
  run (compute_roc_auc (fun _ _ => []) (fun r => r) (fun x => x)
         (T2 2 P) (T2 2 Y) false false false (Some "weighted"%string))
  = Return (Float (weighted_mean 2
                     (fun i => binary_auc (column 0%Z Y i) (column 0%Qc P i))
                     (fun i => sumZ (column 0%Z Y i)))).
Proof.
  intros Y P.
  refine (proj1 (C5_weighted_average (fun _ _ => []) (fun r => r) (fun x => x)
                   (T2 2 P) (T2 2 Y) false false false 2 P (Mat 2 Y) Y
                   eq_refl eq_refl eq_refl eq_refl _ _ eq_refl _ _)).
  - repeat constructor.
  - repeat constructor.
  - discriminate.
  - intros i Hi.
    destruct i as [|[|i]]; [| |lia]; (split; [apply Forall_is_binary; reflexivity|]);
      simpl; auto.
Defined.

Lemma C6_witness :
  let Y := [[1; 0]; [0; 1]; [1; 0]]%Z in
  let P := [[frac 1 2; frac 1 3]; [frac 1 4; frac 1 4]; [frac 3 4; frac 1 5]] in
  compute_roc_auc (fun _ _ => []) (fun r => r) (fun x => x)
    (T2 2 P) (T2 2 Y) false false false (Some "micro"%string)
  = (r <- _calculate (concat Y) (concat P) ;; ret (Float r))
  /\ _calculate (concat Y) (concat P)
     = _calculate (concat (columns 0%Z 2 Y)) (concat (columns 0%Qc 2 P)).
Proof.
  intros Y P.
  pose proof (C6_micro_average (fun _ _ => []) (fun r => r) (fun x => x)
                (T2 2 P) (T2 2 Y) false false false 2 2 P (Mat 2 Y) Y
                eq_refl eq_refl eq_refl eq_refl) as [H1 H2].
  split; [exact H1|].
  apply H2.
  - repeat constructor.
  - repeat constructor.
  - reflexivity.
Defined.

(** *** Claim C7 *)

(** NaN comes from the macro mean of an empty list of per-class values. *)
Lemma aggregate_NaN_inv (m n : nat) (Y : list (list Z)) (P : list (list Qc))
    (average : option string) (c : nat) :
  aggregate (Mat m Y) n P average = (Return NaN, c) ->
  combine (transpose_rows m Y) (transpose_rows n P) = [].
Proof.
  destruct (match average with Some a => String.eqb a "micro" | None => false end) eqn:Em.
  - destruct average as [a|]; [|discriminate]. apply String.eqb_eq in Em. subst a.
    rewrite aggregate_micro. cbn [flat]. rewrite bind_ret_l.
    destruct (_calculate _ _) as [[r|e] k]; discriminate.
  - rewrite (aggregate_per_class _ _ _ _ Em). cbn [transpose]. rewrite bind_ret_l.
    intros H. apply bind_Return_inv in H as (aucs & c1 & c2 & Hm & H & _).
    assert (Ha : aucs = []).
    { destruct average as [a|]; [|discriminate].
      destruct (String.eqb a "macro").
      - destruct aucs; [reflexivity|discriminate].
      - destruct (String.eqb a "weighted"); [|discriminate].
        destruct (np_average_in_unit _ _ _ _ _ _ Hm H) as (x & Hx & _). discriminate. }
    subst aucs. apply mapM_length in Hm. now destruct (combine _ _).
Qed.

(** C7 as stated fails: a 2x0 input has only labels in 0/1 and no class
    without a positive or a negative, and average macro returns NaN on it. *)
Lemma C7_counterexample :
  let Y : list (list Z) := [[]; []] in
  let P : list (list Qc) := [[]; []] in
  (forall r l, In r Y -> In l r -> l = 0%Z \/ l = 1%Z)
  /\ (forall i, i < 0 -> In 1%Z (column 0%Z Y i) /\ In 0%Z (column 0%Z Y i))
  /\ compute_roc_auc (fun _ _ => []) (fun r => r) (fun x => x)
       (T2 0 P) (T2 0 Y) false false false (Some "macro"%string)
     = (Return NaN, 0)
  /\ ~ value_in_unit NaN.
Proof.
  cbn zeta. split; [|split; [|split]].
  - intros r l [<- | [<- | []]] [].
  - intros i Hi. lia.
  - reflexivity.
  - intros H. exact H.
Qed.

(** C7. Whenever [compute_roc_auc] returns, every number it returns (the
    single-channel result, the micro, macro and weighted aggregates, each
    entry of the per-class list) lies in [0,1].  The only other value it can
    return is numpy's NaN, as the macro mean of an empty list of classes,
    when no comparison was made; this does not happen when the label and
    the score matrix are rectangular with at least one column each. *)
Theorem C7_returned_values_in_unit_interval
    (one_hot : batch Z -> nat -> list (list Z))
    (softmax : list Qc -> list Qc) (sigmoid : Qc -> Qc)
    (y_pred : tensor Qc) (y : tensor Z)
    (to_onehot_y add_softmax add_sigmoid : bool) (average : option string)
    (v : value) (c : nat) :
  compute_roc_auc one_hot softmax sigmoid y_pred y
    to_onehot_y add_softmax add_sigmoid average = (Return v, c) ->
  (forall x, v = Float x -> (0 <= x)%Qc /\ (x <= 1)%Qc)
  /\ (forall l, v = FloatList l -> Forall (fun x => (0 <= x)%Qc /\ (x <= 1)%Qc) l)
  /\ (v = NaN -> average = Some "macro"%string /\ c = 0)
  /\ (forall n m rows yb Y,
         normalize y_pred = Some (Mat n rows) -> normalize y = Some yb ->
         prepared_labels one_hot to_onehot_y yb n = Mat m Y ->
         rectangular m Y ->
         rectangular n (prepared_scores softmax sigmoid add_softmax add_sigmoid rows) ->
         n <> 0 -> m <> 0 -> v <> NaN).
Proof.
  intros H.
  assert (Hv : match v with
               | NaN => average = Some "macro"%string /\ c = 0
               | _ => value_in_unit v
               end).
  { destruct (compute_cases one_hot softmax sigmoid y_pred y
                to_onehot_y add_softmax add_sigmoid average)
      as [(msg & E & _) | [(s & yb & Hf & Hp & Hy) | (n & rows & yb & Hf & Hp & Hy)]].
    - rewrite E in H. discriminate.
    - rewrite (compute_1d _ _ _ _ _ _ _ _ _ _ _ Hf Hp Hy) in H.
      apply single_Return_inv in H as (labels & r & Hr & ->).
      eapply calculate_Return_in_unit; eauto.
    - rewrite (compute_2d _ _ _ _ _ _ _ _ _ _ _ _ Hf Hp Hy) in H.
      now apply aggregate_Return_in_unit in H. }
  split; [|split; [|split]].
  - intros x ->. exact Hv.
  - intros l ->. exact Hv.
  - intros ->. exact Hv.
  - intros n m rows yb Y Hp Hy HY HrY HrP Hn Hm ->.
    assert (Hf : add_softmax && add_sigmoid = false).
    { revert H. unfold compute_roc_auc.
      destruct (add_softmax && add_sigmoid); [discriminate|reflexivity]. }
    rewrite (compute_2d _ _ _ _ _ _ _ _ _ _ _ _ Hf Hp Hy), HY in H.
    apply aggregate_NaN_inv in H. apply (f_equal (@length _)) in H.
    rewrite length_combine, !transpose_rows_length in H by assumption.
    cbn [length] in H. lia.
Qed.

Lemma C7_witness :
  exists x,
    compute_roc_auc (fun _ _ => []) (fun r => r) (fun x => x)
      (T2 2 [[frac 1 2; frac 1 3]; [frac 1 4; frac 1 4]; [frac 3 4; frac 1 5]])
      (T2 2 [[1; 0]; [0; 1]; [1; 0]]%Z) false false false (Some "weighted"%string)
    = (Return (Float x), 4)
    /\ (0 <= x)%Qc /\ (x <= 1)%Qc.
Proof.
  assert (E : compute_roc_auc (fun _ _ => []) (fun r => r) (fun x => x)
             (T2 2 [[frac 1 2; frac 1 3]; [frac 1 4; frac 1 4]; [frac 3 4; frac 1 5]])
             (T2 2 [[1; 0]; [0; 1]; [1; 0]]%Z) false false false (Some "weighted"%string)
              = (Return (Float (frac 5 6)), 4)).
  { apply value_eq; vm_compute; reflexivity. }
  exists (frac 5 6). split; [exact E|].
  exact (proj1 (C7_returned_values_in_unit_interval _ _ _ _ _ _ _ _ _ _ _ E)
           (frac 5 6) eq_refl).
Defined.

(** ** Evaluations *)

Example macro_example :
  run (compute_roc_auc (fun _ _ => []) (fun r => r) (fun x => x)
         (T2 2 [[frac 1 2; frac 1 3]; [frac 1 4; frac 1 4]; [frac 3 4; frac 1 5]])
         (T2 2 [[1; 0]; [0; 1]; [1; 0]]%Z) false false false (Some "macro"%string))
  = Return (Float (frac 3 4)).
Proof. eapply run_Float; [vm_compute; reflexivity | reflexivity]. Qed.

Example micro_example :
  run (compute_roc_auc (fun _ _ => []) (fun r => r) (fun x => x)
         (T2 2 [[frac 1 2; frac 1 3]; [frac 1 4; frac 1 4]; [frac 3 4; frac 1 5]])
         (T2 2 [[1; 0]; [0; 1]; [1; 0]]%Z) false false false (Some "micro"%string))
  = Return (Float (frac 5 6)).
Proof. eapply run_Float; [vm_compute; reflexivity | reflexivity]. Qed.

Example squeeze_example :
  run (compute_roc_auc (fun _ _ => []) (fun r => r) (fun x => x)
         (T2 1 [[frac 1 10]; [frac 4 10]; [frac 35 100]; [frac 8 10]])
         (T2 1 [[0]; [0]; [1]; [1]]%Z) false false false None)
  = Return (Float (frac 3 4)).
Proof. eapply run_Float; [vm_compute; reflexivity | reflexivity]. Qed.

Example no_class_example :
  compute_roc_auc (fun _ _ => []) (fun r => r) (fun x => x)
    (T2 0 [[]; []]) (T2 0 [[]; []]) false false false (Some "macro"%string)
  = (Return NaN, 0).
Proof. reflexivity. Qed.

Example rank_example :
  compute_roc_auc (fun _ _ => []) (fun r => r) (fun x => x)
    (THigh 0) (T1 [0; 1]%Z) false false false None
  = (Raise (ValueError predictions_msg), 0).
Proof. reflexivity. Qed.

(** * Further properties of the code *)

(** ** Extreme and tied separations *)

Lemma Qcplus_le_reg_r (a b c : Qc) : (a + c <= b + c)%Qc -> (a <= b)%Qc.
Proof.
  intros H. apply Qcle_minus_iff. apply Qcle_minus_iff in H.
  now replace (b + c + - (a + c))%Qc with (b + - a)%Qc in H by ring.
Qed.

Lemma sum_le_scaled (B : Qc) (l : list Qc) :
  Forall (fun v => (v <= B)%Qc) l -> (sum l <= Qc_of_nat (length l) * B)%Qc.
Proof.
  induction 1 as [|x l Hx _ IH].
  - cbn [length]. rewrite Qc_of_nat_0, Qcmult_0_l. apply Qcle_refl.
  - rewrite sum_cons. cbn [length].
    rewrite Qc_of_nat_S, Qcmult_plus_distr_l, Qcmult_1_l.
    now apply Qcplus_le_compat.
Qed.

(** A sum that reaches its bound has every term at the bound. *)
Lemma sum_max_inv (B : Qc) (l : list Qc) :
  Forall (fun v => (v <= B)%Qc) l ->
  sum l = (Qc_of_nat (length l) * B)%Qc ->
  Forall (fun v => v = B) l.
Proof.
  induction 1 as [|x l Hx Hl IH]; intros Hs; constructor.
  - rewrite sum_cons in Hs. cbn [length] in Hs.
    rewrite Qc_of_nat_S, Qcmult_plus_distr_l, Qcmult_1_l in Hs.
    apply Qcle_antisym; [assumption|].
    apply (Qcplus_le_reg_r _ _ (Qc_of_nat (length l) * B)). rewrite <- Hs.
    apply Qcplus_le_compat; [apply Qcle_refl | now apply sum_le_scaled].
  - apply IH. rewrite sum_cons in Hs. cbn [length] in Hs.
    rewrite Qc_of_nat_S, Qcmult_plus_distr_l, Qcmult_1_l in Hs.
    apply Qcle_antisym; [now apply sum_le_scaled|].
    apply (Qcplus_le_reg_r _ _ x).
    rewrite (Qcplus_comm (sum l) x), (Qcplus_comm _ x), Hs.
    apply Qcplus_le_compat; [assumption | apply Qcle_refl].
Qed.

Lemma sum_map_const {A} (f : A -> Qc) (c : Qc) (l : list A) :
  (forall x, In x l -> f x = c) -> sum (map f l) = (Qc_of_nat (length l) * c)%Qc.
Proof.
  induction l as [|x l IH]; intros H; cbn [map length].
  - rewrite sum_nil, Qc_of_nat_0. ring.
  - rewrite sum_cons, Qc_of_nat_S, (H x (or_introl eq_refl)),
      IH by (intros; apply H; now right). ring.
Qed.

(** When every pair gets the same comparator value. *)
Lemma wins_const (c : Qc) (P N : list Qc) :
  (forall a b, In a P -> In b N -> comparator a b = c) ->
  wins P N = (Qc_of_nat (length P * length N) * c)%Qc.
Proof.
  intros H. unfold wins.
  rewrite (sum_map_const _ (Qc_of_nat (length N) * c)%Qc).
  - rewrite Qc_of_nat_mul. ring.
  - intros a Ha. apply sum_map_const. intros b Hb. now apply H.
Qed.

Lemma wins_full_inv (P N : list Qc) :
  wins P N = Qc_of_nat (length P * length N) ->
  forall a b, In a P -> In b N -> comparator a b = 1%Qc.
Proof.
  intros Hw a b Ha Hb.
  assert (Hrows : Forall (fun v => v = Qc_of_nat (length N))
                    (map (fun a => row a N) P)).
  { apply sum_max_inv.
    - apply Forall_forall. intros v Hv. apply in_map_iff in Hv as (a' & <- & _).
      apply row_bounds.
    - rewrite length_map, <- Qc_of_nat_mul. exact Hw. }
  rewrite Forall_forall in Hrows.
  assert (Hrow : row a N = (Qc_of_nat (length (map (fun b => comparator a b) N)) * 1)%Qc).
  { rewrite length_map, Qcmult_1_r. apply Hrows.
    apply in_map_iff. now exists a. }
  apply sum_max_inv in Hrow.
  - rewrite Forall_forall in Hrow. apply Hrow. apply in_map_iff. now exists b.
  - apply Forall_forall. intros v Hv. apply in_map_iff in Hv as (b' & <- & _).
    apply comparator_in_unit.
Qed.

Lemma comparator_one_iff (a b : Qc) : comparator a b = 1%Qc <-> (b < a)%Qc.
Proof.
  split; [|apply comparator_spec].
  unfold comparator. destruct (a ?= b)%Qc eqn:E; intros H.
  - discriminate.
  - discriminate.
  - now apply Qcgt_alt.
Qed.

Lemma div_eq_one (w d : Qc) : d <> 0%Qc -> ((w / d)%Qc = 1%Qc <-> w = d).
Proof.
  intros Hd. split; intros H.
  - rewrite <- (Qcmult_div_r w d Hd), H. ring.
  - subst w. field. exact Hd.
Qed.

Lemma div_eq_zero (w d : Qc) : d <> 0%Qc -> ((w / d)%Qc = 0%Qc <-> w = 0%Qc).
Proof.
  intros Hd. split; intros H.
  - rewrite <- (Qcmult_div_r w d Hd), H. ring.
  - subst w. field. exact Hd.
Qed.

Lemma binary_auc_one_iff (y : list Z) (y_pred : list Qc) :
  In 1%Z y -> In 0%Z y ->
  binary_auc y y_pred = 1%Qc
  <-> (forall i j, In i (pos y) -> In j (neg y) ->
                   (score y_pred j < score y_pred i)%Qc).
Proof.
  intros H1 H0. unfold binary_auc.
  rewrite (div_eq_one _ _ (Qc_of_nat_neq_0 _ (pos_neg_nonzero y H1 H0))).
  rewrite pairwise_sum_wins.
  rewrite <- (length_map (score y_pred) (pos y)), <- (length_map (score y_pred) (neg y)).
  split.
  - intros Hw i j Hi Hj. apply comparator_one_iff.
    apply (wins_full_inv _ _ Hw); now apply in_map.
  - intros H. rewrite (wins_const 1%Qc); [ring|].
    intros a b Ha Hb. apply in_map_iff in Ha as (i & <- & Hi).
    apply in_map_iff in Hb as (j & <- & Hj). apply comparator_one_iff. auto.
Qed.

Lemma binary_auc_zero_iff (y : list Z) (y_pred : list Qc) :
  In 1%Z y -> In 0%Z y ->
  binary_auc y y_pred = 0%Qc
  <-> (forall i j, In i (pos y) -> In j (neg y) ->
                   (score y_pred i < score y_pred j)%Qc).
Proof.
  intros H1 H0. unfold binary_auc.
  rewrite (div_eq_zero _ _ (Qc_of_nat_neq_0 _ (pos_neg_nonzero y H1 H0))).
  rewrite pairwise_sum_wins.
  set (P := map (score y_pred) (pos y)). set (N := map (score y_pred) (neg y)).
  pose proof (wins_swap P N) as Hs.
  split.
  - intros Hw i j Hi Hj. apply comparator_one_iff.
    apply (wins_full_inv N P).
    + rewrite Nat.mul_comm, <- Hs, Hw. ring.
    + now apply in_map.
    + now apply in_map.
  - intros H.
    assert (Hf : wins N P = (Qc_of_nat (length N * length P) * 1)%Qc).
    { apply wins_const. intros b a Hb Ha.
      apply in_map_iff in Ha as (i & <- & Hi).
      apply in_map_iff in Hb as (j & <- & Hj). apply comparator_one_iff. auto. }
    rewrite (Nat.mul_comm (length N)), <- Hs in Hf.
    replace (wins P N) with ((wins P N + wins N P) * 1 - wins N P)%Qc by ring.
    rewrite <- Hf. ring.
Qed.

(** X1. On labels in 0/1 with at least one 1 and one 0 and scores of the same
    length, [_calculate] returns 1 exactly when every positive has a
    strictly greater score than every negative. *)
Theorem X1_auc_one_iff_perfect_separation (y : list Z) (y_pred : list Qc) :
  Forall (fun l => l = 0%Z \/ l = 1%Z) y ->
  In 1%Z y -> In 0%Z y -> length y_pred = length y ->
  run (_calculate y y_pred) = Return 1%Qc
  <-> (forall i j, In i (pos y) -> In j (neg y) ->
                   (score y_pred j < score y_pred i)%Qc).
Proof.
  intros Hb H1 H0 Hl. apply Forall_is_binary in Hb.
  rewrite (calculate_defined y y_pred Hb H1 H0) by lia. cbn [run fst].
  split.
  - intros E. apply Return_inj in E. now apply (binary_auc_one_iff y y_pred H1 H0).
  - intros H. f_equal. now apply (binary_auc_one_iff y y_pred H1 H0).
Qed.

Lemma X1_witness :
  run (_calculate [0; 1; 0; 1]%Z [frac 1 5; frac 4 5; frac 2 5; frac 3 5]) = Return 1%Qc.
Proof.
  apply X1_auc_one_iff_perfect_separation.
  - apply Forall_is_binary. reflexivity.
  - simpl; auto.
  - simpl; auto.
  - reflexivity.
  - intros i j Hi Hj. simpl in Hi, Hj.
    destruct Hi as [<-|[<-|[]]], Hj as [<-|[<-|[]]]; reflexivity.
Defined.

(** X2. Under the same conditions [_calculate] returns 0 exactly when every
    positive has a strictly smaller score than every negative. *)
Theorem X2_auc_zero_iff_complete_inversion (y : list Z) (y_pred : list Qc) :
  Forall (fun l => l = 0%Z \/ l = 1%Z) y ->
  In 1%Z y -> In 0%Z y -> length y_pred = length y ->
  run (_calculate y y_pred) = Return 0%Qc
  <-> (forall i j, In i (pos y) -> In j (neg y) ->
                   (score y_pred i < score y_pred j)%Qc).
Proof.
  intros Hb H1 H0 Hl. apply Forall_is_binary in Hb.
  rewrite (calculate_defined y y_pred Hb H1 H0) by lia. cbn [run fst].
  split.
  - intros E. apply Return_inj in E. now apply (binary_auc_zero_iff y y_pred H1 H0).
  - intros H. f_equal. now apply (binary_auc_zero_iff y y_pred H1 H0).
Qed.

Lemma X2_witness :
  run (_calculate [1; 0; 1; 0]%Z [frac 1 5; frac 4 5; frac 2 5; frac 3 5]) = Return 0%Qc.
Proof.
  apply X2_auc_zero_iff_complete_inversion.
  - apply Forall_is_binary. reflexivity.
  - simpl; auto.
  - simpl; auto.
  - reflexivity.
  - intros i j Hi Hj. simpl in Hi, Hj.
    destruct Hi as [<-|[<-|[]]], Hj as [<-|[<-|[]]]; reflexivity.
Defined.

(** X3. Under the same conditions, when every positive ties with every
    negative (in particular when all scores are equal) [_calculate]
    returns 1/2. *)
Theorem X3_all_ties_give_half (y : list Z) (y_pred : list Qc) :
  Forall (fun l => l = 0%Z \/ l = 1%Z) y ->
  In 1%Z y -> In 0%Z y -> length y_pred = length y ->
  (forall i j, In i (pos y) -> In j (neg y) -> score y_pred i = score y_pred j) ->
  run (_calculate y y_pred) = Return (frac 1 2).
Proof.
  intros Hb H1 H0 Hl Ht. apply Forall_is_binary in Hb.
  rewrite (calculate_defined y y_pred Hb H1 H0) by lia. cbn [run fst].
  f_equal. unfold binary_auc. rewrite pairwise_sum_wins.
  rewrite (wins_const half).
  - rewrite !length_map. change (frac 1 2) with half. field.
    apply Qc_of_nat_neq_0. now apply pos_neg_nonzero.
  - intros a b Ha Hb'. apply in_map_iff in Ha as (i & <- & Hi).
    apply in_map_iff in Hb' as (j & <- & Hj).
    apply comparator_spec. auto.
Qed.

Lemma X3_witness :
  run (_calculate [1; 0; 1; 0]%Z [frac 2 7; frac 2 7; frac 2 7; frac 2 7])
  = Return (frac 1 2).
Proof.
  apply X3_all_ties_give_half.
  - apply Forall_is_binary. reflexivity.
  - simpl; auto.
  - simpl; auto.
  - reflexivity.
  - intros i j Hi Hj. simpl in Hi, Hj.
    destruct Hi as [<-|[<-|[]]], Hj as [<-|[<-|[]]]; reflexivity.
Defined.

(** ** Order and number of the samples *)

(** X4. Reordering the samples, labels and scores alike, changes neither
    the outcome of [_calculate] nor its number of comparisons. *)
Theorem X4_sample_permutation_invariance (y y' : list Z) (y_pred y_pred' : list Qc) :
  length y = length y_pred -> length y' = length y_pred' ->
  Permutation (combine y y_pred) (combine y' y_pred') ->
  _calculate y y_pred = _calculate y' y_pred'.
Proof. intros Hl Hl' H. now apply calculate_Permutation. Qed.

Lemma X4_witness :
  _calculate [0; 1; 1]%Z [frac 1 2; frac 1 3; frac 3 4]
  = _calculate [1; 0; 1]%Z [frac 3 4; frac 1 2; frac 1 3].
Proof.
  apply X4_sample_permutation_invariance; [reflexivity|reflexivity|].
  cbn [combine].
  eapply perm_trans; [apply perm_skip, perm_swap | apply perm_swap].
Defined.

(** ** Labels and scores of different lengths *)

Lemma combine_app_r {A B} (l : list A) (s e : list B) :
  length l <= length s -> combine l (s ++ e) = combine l s.
Proof.
  revert s. induction l as [|a l IH]; intros [|b s] H; simpl in *;
    try reflexivity; try lia.
  f_equal. apply IH. lia.
Qed.

(** X5. The lengths are not compared: scores beyond the last label are
    ignored, whatever they are. *)
Theorem X5_surplus_scores_ignored (y : list Z) (y_pred extra : list Qc) :
  length y <= length y_pred ->
  _calculate y (y_pred ++ extra) = _calculate y y_pred.
Proof.
  intros Hl. destruct (forallb is_binary y) eqn:Hb.
  - rewrite !calculate_binary by (rewrite ?length_app; auto; lia).
    unfold select. now rewrite combine_app_r.
  - now rewrite !calculate_invalid.
Qed.

Lemma X5_witness :
  _calculate [0; 1]%Z ([frac 1 2; frac 1 3] ++ [frac 9 10; frac 1 10])
  = _calculate [0; 1]%Z [frac 1 2; frac 1 3].
Proof. apply X5_surplus_scores_ignored. simpl. lia. Defined.

Lemma mapM_raises {A B} (f : A -> M B) (E : exn) (l : list A) :
  (forall x e k, In x l -> f x = (Raise e, k) -> e = E) ->
  (exists x k, In x l /\ f x = (Raise E, k)) ->
  exists k, mapM f l = (Raise E, k).
Proof.
  induction l as [|x l IH]; intros Hall (x0 & k0 & Hin & Hx0); [contradiction|].
  cbn [mapM]. destruct (f x) as [[v|e] k] eqn:Ex.
  - destruct Hin as [-> | Hin]; [congruence|].
    destruct IH as (k' & Hk').
    + intros z e k1 Hz. apply Hall. now right.
    + now exists x0, k0.
    + rewrite Hk'. cbn. now eexists.
  - rewrite (Hall x e k (or_introl eq_refl) Ex). cbn. now eexists.
Qed.

Lemma getitem_out_of_range (y_pred : list Qc) (i : nat) :
  length y_pred <= i -> getitem y_pred i = raise IndexError.
Proof.
  intros H. unfold getitem. now rewrite (proj2 (nth_error_None y_pred i) H).
Qed.

Lemma pair_term_out_of_range (y_pred : list Qc) (i j : nat) :
  length y_pred <= i \/ length y_pred <= j ->
  exists k, pair_term y_pred i j = (Raise IndexError, k).
Proof.
  intros H. unfold pair_term, getitem.
  destruct (nth_error y_pred i) as [a|] eqn:Ei.
  - destruct H as [H|H].
    + apply nth_error_None in H. congruence.
    + rewrite bind_ret_l, (proj2 (nth_error_None y_pred j) H). cbn. now eexists.
  - cbn. now eexists.
Qed.

Lemma row_term_out_of_range (y_pred : list Qc) (ns : list nat) (i : nat) :
  (exists j, In j ns /\ (length y_pred <= i \/ length y_pred <= j)) ->
  exists k, row_term y_pred ns i = (Raise IndexError, k).
Proof.
  intros (j & Hj & H). unfold row_term.
  destruct (mapM_raises (pair_term y_pred i) IndexError ns) as (k & Hk).
  - intros x e k _ Hx. now apply pair_term_Raise_inv in Hx.
  - destruct (pair_term_out_of_range y_pred i j H) as (k & Hk). now exists j, k.
  - rewrite Hk. cbn. now eexists.
Qed.

Lemma index_covered (y : list Z) (i : nat) :
  forallb is_binary y = true -> i < length y -> In i (pos y) \/ In i (neg y).
Proof.
  intros Hb Hi. apply Forall_is_binary in Hb. rewrite Forall_forall in Hb.
  destruct (nth_error y i) as [l|] eqn:E; [|apply nth_error_None in E; lia].
  destruct (Hb l (nth_error_In _ _ E)) as [-> | ->].
  - right. apply indices_of_label. auto.
  - left. apply indices_of_label. auto.
Qed.

(** X6. With fewer scores than labels in 0/1, at least one 1 and one 0, the
    call fails with IndexError. *)
Theorem X6_missing_scores_raise_index_error (y : list Z) (y_pred : list Qc) :
  Forall (fun l => l = 0%Z \/ l = 1%Z) y ->
  In 1%Z y -> In 0%Z y -> length y_pred < length y ->
  run (_calculate y y_pred) = Raise IndexError.
Proof.
  intros Hb H1 H0 Hl. apply Forall_is_binary in Hb.
  rewrite calculate_unfold, (split_indexes_binary _ _ _ _ Hb), bind_ret_l.
  cbn [app]. rewrite !indexes_from_indices_of. fold (pos y) (neg y).
  apply In_indices_of in H1, H0. fold (pos y) in H1. fold (neg y) in H0.
  destruct (mapM_raises (row_term y_pred (neg y)) IndexError (pos y)) as (k & Hk).
  - intros x e k _ Hx. now apply row_term_Raise_inv in Hx.
  - destruct (index_covered y (length y - 1) Hb ltac:(lia)) as [Hp|Hn].
    + destruct (neg y) as [|j ns] eqn:En; [contradiction|].
      destruct (row_term_out_of_range y_pred (j :: ns) (length y - 1)) as (k & Hk).
      * exists j. split; [now left|left; lia].
      * now exists (length y - 1), k.
    + destruct (pos y) as [|i ps] eqn:Ep; [contradiction|].
      destruct (row_term_out_of_range y_pred (neg y) i) as (k & Hk).
      * exists (length y - 1). split; [assumption|right; lia].
      * exists i, k. split; [now left|assumption].
  - rewrite Hk. reflexivity.
Qed.

Lemma X6_witness :
  run (_calculate [0; 1; 1]%Z [frac 1 2; frac 1 3]) = Raise IndexError.
Proof.
  apply X6_missing_scores_raise_index_error.
  - apply Forall_is_binary. reflexivity.
  - simpl; auto.
  - simpl; auto.
  - simpl. lia.
Defined.

(** ** Number of comparisons *)

Lemma mapM_cost_le {A B} (f : A -> M B) (k : nat) (l : list A) :
  (forall x, In x l -> snd (f x) <= k) -> snd (mapM f l) <= length l * k.
Proof.
  induction l as [|x l IH]; intros H; [apply Nat.le_refl|].
  cbn [mapM length]. pose proof (H x (or_introl eq_refl)) as Hx.
  specialize (IH (fun z Hz => H z (or_intror Hz))).
  destruct (f x) as [[v|e] c]; cbn [snd] in Hx.
  - destruct (mapM f l) as [[vs|e] c']; cbn in *; lia.
  - cbn. lia.
Qed.

Lemma pair_term_cost_le (y_pred : list Qc) (i j : nat) :
  snd (pair_term y_pred i j) <= 1.
Proof.
  unfold pair_term, getitem.
  destruct (nth_error y_pred i); [|cbn; lia].
  destruct (nth_error y_pred j); cbn; lia.
Qed.

Lemma row_term_cost_le (y_pred : list Qc) (ns : list nat) (i : nat) :
  snd (row_term y_pred ns i) <= length ns.
Proof.
  unfold row_term.
  pose proof (mapM_cost_le (pair_term y_pred i) 1 ns
                (fun j _ => pair_term_cost_le y_pred i j)) as H.
  destruct (mapM _ ns) as [[vs|e] c]; cbn in *; lia.
Qed.

Lemma indexes_from_lengths (y : list Z) (k : nat) :
  length (indexes_from 1 k y) + length (indexes_from 0 k y) <= length y.
Proof.
  revert k. induction y as [|l y IH]; intros k; [apply Nat.le_refl|].
  cbn [indexes_from length]. specialize (IH (S k)).
  destruct (Z.eqb_spec l 1), (Z.eqb_spec l 0); cbn [length]; lia.
Qed.

(** X7. Whatever the outcome, value or exception, [_calculate] makes at
    most |pos|*|neg| comparisons, hence at most a quarter of the square of
    the number of labels. *)
Theorem X7_comparison_bound (y : list Z) (y_pred : list Qc) :
  comparisons (_calculate y y_pred) <= length (pos y) * length (neg y)
  /\ 4 * comparisons (_calculate y y_pred) <= length y * length y.
Proof.
  assert (H : comparisons (_calculate y y_pred) <= length (pos y) * length (neg y)).
  { destruct (forallb is_binary y) eqn:Hb.
    - rewrite calculate_unfold, (split_indexes_binary _ _ _ _ Hb), bind_ret_l.
      cbn [app]. rewrite !indexes_from_indices_of. fold (pos y) (neg y).
      pose proof (mapM_cost_le (row_term y_pred (neg y)) (length (neg y)) (pos y)
                    (fun i _ => row_term_cost_le y_pred (neg y) i)) as Hc.
      unfold comparisons, truediv.
      destruct (mapM _ (pos y)) as [[rows|e] c]; cbn [bind snd] in *; [|lia].
      destruct (_ =? 0); cbn; lia.
    - rewrite (calculate_invalid _ _ Hb). cbn. lia. }
  split; [exact H|].
  - pose proof (indexes_from_lengths y 0) as Hl.
    rewrite !indexes_from_indices_of in Hl. fold (pos y) (neg y) in Hl.
    revert H Hl. generalize (comparisons (_calculate y y_pred)), (length (pos y)),
      (length (neg y)), (length y). intros c p n L H Hl.
    assert (H1 : 4 * (p * n) <= (p + n) * (p + n)).
    { destruct (Nat.le_ge_cases p n) as [Hpn|Hpn].
      - replace n with (p + (n - p)) by lia. nia.
      - replace p with (n + (p - n)) by lia. nia. }
    assert (H2 : (p + n) * (p + n) <= L * L) by (apply Nat.mul_le_mono; lia).
    lia.
Qed.

(** ** Validation in [compute_roc_auc] *)

Section Validation.
Variable one_hot : batch Z -> nat -> list (list Z).
Variable softmax : list Qc -> list Qc.
Variable sigmoid : Qc -> Qc.

Local Notation "'roc_auc'" := (compute_roc_auc one_hot softmax sigmoid).

Lemma compute_body_classify y_pred y to_onehot_y add_softmax add_sigmoid average p yb e :
  add_softmax && add_sigmoid = false ->
  normalize y_pred = Some p -> normalize y = Some yb ->
  run (roc_auc y_pred y to_onehot_y add_softmax add_sigmoid average) = Raise e ->
  classify e = Some InvalidLabelError
  \/ classify e = Some UnsupportedAverageError
  \/ classify e = None.
Proof.
  intros Hf Hp Hy H.
  destruct (roc_auc y_pred y to_onehot_y add_softmax add_sigmoid average)
    as [o c] eqn:E.
  cbn in H. subst o. destruct p as [v|n rows].
  - rewrite (compute_1d _ _ _ _ _ _ _ _ _ _ _ Hf Hp Hy) in E.
    apply single_Raise_classify in E as [[E _]|E]; auto.
  - rewrite (compute_2d _ _ _ _ _ _ _ _ _ _ _ _ Hf Hp Hy) in E.
    now apply aggregate_Raise_classify in E.
Qed.

Lemma normalize_Some_rank {A} (t : tensor A) (p : batch A) :
  normalize t = Some p -> ndimension t = 1 \/ ndimension t = 2.
Proof. destruct t; simpl; try discriminate; auto. Qed.

(** X8. The three validation errors of [compute_roc_auc] and their order:
    the call fails with the ValueError for incompatible transforms exactly
    when [add_softmax] and [add_sigmoid] are both set, whatever the tensors;
    with the one for the predictions exactly when the flags are compatible
    and the rank of [y_pred] is neither 1 nor 2; with the one for the
    targets exactly when, in addition, the rank of [y_pred] is 1 or 2 and the
    rank of [y] is neither.  No comparison has been made then. *)
Theorem X8_validation_errors y_pred y to_onehot_y add_softmax add_sigmoid average :
  let r := roc_auc y_pred y to_onehot_y add_softmax add_sigmoid average in
  (run r = Raise (ValueError incompatible_msg)
   <-> add_softmax = true /\ add_sigmoid = true)
  /\ (run r = Raise (ValueError predictions_msg)
      <-> add_softmax && add_sigmoid = false
          /\ ndimension y_pred <> 1 /\ ndimension y_pred <> 2)
  /\ (run r = Raise (ValueError targets_msg)
      <-> add_softmax && add_sigmoid = false
          /\ (ndimension y_pred = 1 \/ ndimension y_pred = 2)
          /\ ndimension y <> 1 /\ ndimension y <> 2)
  /\ (forall msg,
         run r = Raise (ValueError msg) ->
         msg = incompatible_msg \/ msg = predictions_msg \/ msg = targets_msg ->
         comparisons r = 0).
Proof.
  cbn zeta.
  destruct (add_softmax && add_sigmoid) eqn:Hf.
  { assert (E : roc_auc y_pred y to_onehot_y add_softmax add_sigmoid average
                = (Raise (ValueError incompatible_msg), 0))
      by (unfold compute_roc_auc; now rewrite Hf).
    rewrite E. cbn [run comparisons fst snd]. apply andb_prop in Hf as [-> ->].
    repeat split; auto; try discriminate; intros [? _]; discriminate. }
  destruct (normalize y_pred) as [p|] eqn:Hp.
  2:{ assert (E : roc_auc y_pred y to_onehot_y add_softmax add_sigmoid average
                  = (Raise (ValueError predictions_msg), 0))
        by (unfold compute_roc_auc; now rewrite Hf, Hp).
      rewrite E. cbn [run comparisons fst snd].
      apply normalize_rank in Hp as [Hp1 Hp2].
      apply andb_false_iff in Hf.
      repeat split; auto; try discriminate.
      - intros [-> ->]. destruct Hf; discriminate.
      - intros (_ & [H|H] & _); contradiction. }
  pose proof (normalize_Some_rank _ _ Hp) as Hrank.
  destruct (normalize y) as [yb|] eqn:Hy.
  2:{ assert (E : roc_auc y_pred y to_onehot_y add_softmax add_sigmoid average
                  = (Raise (ValueError targets_msg), 0))
        by (unfold compute_roc_auc; now rewrite Hf, Hp, Hy).
      rewrite E. cbn [run comparisons fst snd].
      apply normalize_rank in Hy as [Hy1 Hy2].
      apply andb_false_iff in Hf.
      repeat split; auto; try discriminate.
      - intros [-> ->]. destruct Hf; discriminate.
      - intros (_ & H1 & H2). destruct Hrank; contradiction. }
  assert (Hbody : forall msg,
             run (roc_auc y_pred y to_onehot_y add_softmax add_sigmoid average)
             = Raise (ValueError msg) ->
             msg = incompatible_msg \/ msg = predictions_msg \/ msg = targets_msg ->
             False).
  { intros msg H Hm.
    apply (compute_body_classify _ _ _ _ _ _ _ _ _ Hf Hp Hy) in H.
    destruct Hm as [-> | [-> | ->]]; destruct H as [H|[H|H]]; discriminate. }
  pose proof (normalize_Some_rank _ _ Hy) as Hranky.
  apply andb_false_iff in Hf.
  split; [|split; [|split]].
  - split; intros H;
      [exfalso; eapply Hbody; eauto
      |destruct H as [-> ->]; destruct Hf; discriminate].
  - split; intros H;
      [exfalso; eapply Hbody; eauto
      |exfalso; destruct H as (_ & H1 & H2); destruct Hrank; contradiction].
  - split; intros H;
      [exfalso; eapply Hbody; eauto
      |exfalso; destruct H as (_ & _ & H1 & H2); destruct Hranky; contradiction].
  - intros msg H Hm. exfalso. eapply Hbody; eauto.
Qed.

End Validation.

Lemma X8_witness :
  comparisons
    (compute_roc_auc (fun _ _ => []) (fun r => r) (fun x => x)
       (T1 [frac 1 2; frac 1 3]) (THigh 1) true false true (Some "macro"%string))
  = 0.
Proof.
  apply (proj2 (proj2 (proj2
           (X8_validation_errors (fun _ _ => []) (fun r => r) (fun x => x)
              (T1 [frac 1 2; frac 1 3]) (THigh 1) true false true
              (Some "macro"%string))))
           targets_msg).
  - reflexivity.
  - right. right. reflexivity.
Defined.

(** ** Single-channel scores *)

Section SingleChannel.
Variable one_hot : batch Z -> nat -> list (list Z).
Variable softmax : list Qc -> list Qc.
Variable sigmoid : Qc -> Qc.

Local Notation "'roc_auc'" := (compute_roc_auc one_hot softmax sigmoid).

(** X9. Scores of shape (batch,) or (batch, 1) take the binary path: when
    the two transforms are not both requested, [to_onehot_y], [add_softmax]
    and [average] have no effect on the outcome, and a (batch, 1) tensor of
    scores or of labels is treated as the (batch,) tensor of its entries. *)
Theorem X9_single_channel_path (y : tensor Z)
    (to_onehot_y add_softmax add_sigmoid : bool) (average : option string) :
  add_softmax && add_sigmoid = false ->
  (forall v,
      roc_auc (T1 v) y to_onehot_y add_softmax add_sigmoid average
      = roc_auc (T1 v) y false false add_sigmoid None)
  /\ (forall rows,
         roc_auc (T2 1 rows) y to_onehot_y add_softmax add_sigmoid average
         = roc_auc (T1 (concat rows)) y false false add_sigmoid None)
  /\ (forall y_pred rows,
         roc_auc y_pred (T2 1 rows) to_onehot_y add_softmax add_sigmoid average
         = roc_auc y_pred (T1 (concat rows)) to_onehot_y add_softmax add_sigmoid average).
Proof.
  intros Hf. repeat split.
  - intros v. unfold compute_roc_auc. rewrite Hf.
    replace (false && add_sigmoid) with false by reflexivity.
    cbn [normalize]. destruct (normalize y); [|reflexivity]. now destruct add_sigmoid.
  - intros rows. unfold compute_roc_auc. rewrite Hf.
    replace (false && add_sigmoid) with false by reflexivity.
    cbn [normalize Nat.eqb]. destruct (normalize y); [|reflexivity].
    now destruct add_sigmoid.
Qed.

End SingleChannel.

Lemma X9_witness :
  compute_roc_auc (fun _ _ => []) (fun r => r) (fun x => x)
    (T2 1 [[frac 1 2]; [frac 1 3]; [frac 3 4]]) (T1 [0; 1; 1]%Z)
    true true false (Some "weighted"%string)
  = compute_roc_auc (fun _ _ => []) (fun r => r) (fun x => x)
      (T1 (concat [[frac 1 2]; [frac 1 3]; [frac 3 4]])) (T1 [0; 1; 1]%Z)
      false false false None.
Proof.
  apply (proj1 (proj2 (X9_single_channel_path (fun _ _ => []) (fun r => r) (fun x => x)
                         (T1 [0; 1; 1]%Z) true true false
                         (Some "weighted"%string) eq_refl))).
Defined.

(** ** The per-class list and its mean *)

Section PerClass.
Variable one_hot : batch Z -> nat -> list (list Z).
Variable softmax : list Qc -> list Qc.
Variable sigmoid : Qc -> Qc.

Local Notation "'roc_auc'" := (compute_roc_auc one_hot softmax sigmoid).

(** X10. On a rank 2 input whose label and score matrices (after the
    optional one-hot step and transforms) are rectangular with the same n
    columns and the same rows, every label column holding 0/1 values with at
    least one 1 and one 0, average None returns the list of the n per-class
    values in class order, after the comparisons of all classes. *)
Theorem X10_per_class_list
    (y_pred : tensor Qc) (y : tensor Z) (to_onehot_y add_softmax add_sigmoid : bool)
    (n : nat) (rows : list (list Qc)) (yb : batch Z) (Y : list (list Z)) :
  add_softmax && add_sigmoid = false ->
  normalize y_pred = Some (Mat n rows) ->
  normalize y = Some yb ->
  prepared_labels one_hot to_onehot_y yb n = Mat n Y ->
  let P := prepared_scores softmax sigmoid add_softmax add_sigmoid rows in
  rectangular n Y -> rectangular n P -> length P = length Y ->
  (forall i, i < n ->
             Forall (fun l => l = 0%Z \/ l = 1%Z) (column 0%Z Y i)
             /\ In 1%Z (column 0%Z Y i) /\ In 0%Z (column 0%Z Y i)) ->
  roc_auc y_pred y to_onehot_y add_softmax add_sigmoid None
  = (Return (FloatList
               (map (fun i => binary_auc (column 0%Z Y i) (column 0%Qc P i)) (seq 0 n))),
     list_sum (map (fun i => length (pos (column 0%Z Y i))
                             * length (neg (column 0%Z Y i))) (seq 0 n))).
Proof.
  intros Hf Hp Hy HY P HrY HrP Hl Hc.
  rewrite (compute_2d _ _ _ _ _ _ _ _ _ _ _ _ Hf Hp Hy), HY. fold P.
  rewrite (aggregate_per_class _ _ _ None eq_refl).
  cbn [transpose]. rewrite bind_ret_l.
  rewrite (per_class_values n Y P HrY HrP Hl Hc), bind_Return.
  cbn [ret fst snd]. f_equal. lia.
Qed.

(** X11. Whenever average None returns a non-empty list, average macro on
    the same arguments returns the arithmetic mean of that list, after the
    same comparisons. *)
Theorem X11_macro_is_mean_of_per_class_list
    (y_pred : tensor Qc) (y : tensor Z) (to_onehot_y add_softmax add_sigmoid : bool)
    (l : list Qc) (c : nat) :
  roc_auc y_pred y to_onehot_y add_softmax add_sigmoid None
  = (Return (FloatList l), c) ->
  l <> [] ->
  roc_auc y_pred y to_onehot_y add_softmax add_sigmoid (Some "macro"%string)
  = (Return (Float (sum l / Qc_of_nat (length l))%Qc), c).
Proof.
  intros H Hne.
  destruct (compute_cases one_hot softmax sigmoid y_pred y
              to_onehot_y add_softmax add_sigmoid None)
    as [(msg & E & _) | [(s & yb & Hf & Hp & Hy) | (n & rows & yb & Hf & Hp & Hy)]].
  - rewrite E in H. discriminate.
  - rewrite (compute_1d _ _ _ _ _ _ _ _ _ _ _ Hf Hp Hy) in H.
    apply single_Return_inv in H as (labels & r & _ & H). discriminate.
  - rewrite (compute_2d _ _ _ _ _ _ _ _ None _ _ _ Hf Hp Hy) in H.
    rewrite (compute_2d _ _ _ _ _ _ _ _ (Some "macro"%string) _ _ _ Hf Hp Hy).
    rewrite (aggregate_per_class _ _ _ None eq_refl) in H.
    rewrite (aggregate_per_class _ _ _ (Some "macro"%string) eq_refl).
    destruct (transpose _) as [[ty|e] c1]; [|discriminate]. cbn [bind] in *.
    destruct (mapM _ _) as [[aucs|e] c2]; [|discriminate]. cbn [bind ret] in *.
    injection H as -> <-. cbn [String.eqb Ascii.eqb Bool.eqb].
    destruct l as [|x l]; [contradiction|]. reflexivity.
Qed.

End PerClass.

Lemma X10_witness :
  let Y := [[1; 0]; [0; 1]; [1; 0]]%Z in
  let P := [[frac 1 2; frac 1 3]; [frac 1 4; frac 1 4]; [frac 3 4; frac 1 5]] in
  compute_roc_auc (fun _ _ => []) (fun r => r) (fun x => x)
    (T2 2 P) (T2 2 Y) false false false None
  = (Return (FloatList
               (map (fun i => binary_auc (column 0%Z Y i) (column 0%Qc P i)) (seq 0 2))),
     list_sum (map (fun i => length (pos (column 0%Z Y i))
                             * length (neg (column 0%Z Y i))) (seq 0 2))).
Proof.
  intros Y P.
  refine (X10_per_class_list (fun _ _ => []) (fun r => r) (fun x => x)
            (T2 2 P) (T2 2 Y) false false false 2 P (Mat 2 Y) Y
            eq_refl eq_refl eq_refl eq_refl _ _ eq_refl _).
  - repeat constructor.
  - repeat constructor.
  - intros i Hi.
    destruct i as [|[|i]]; [| |lia]; (split; [apply Forall_is_binary; reflexivity|]);
      simpl; auto.
Defined.

Lemma X11_witness :
  exists l c,
    compute_roc_auc (fun _ _ => []) (fun r => r) (fun x => x)
      (T2 2 [[frac 1 2; frac 1 3]; [frac 1 4; frac 1 4]; [frac 3 4; frac 1 5]])
      (T2 2 [[1; 0]; [0; 1]; [1; 0]]%Z) false false false (Some "macro"%string)
    = (Return (Float (sum l / Qc_of_nat (length l))%Qc), c)
    /\ length l = 2.
Proof.
  assert (E : exists l,
             compute_roc_auc (fun _ _ => []) (fun r => r) (fun x => x)
               (T2 2 [[frac 1 2; frac 1 3]; [frac 1 4; frac 1 4]; [frac 3 4; frac 1 5]])
               (T2 2 [[1; 0]; [0; 1]; [1; 0]]%Z) false false false None
             = (Return (FloatList l), 4) /\ length l = 2)
    by (eexists; split; vm_compute; reflexivity).
  destruct E as (l & E & Hl). exists l, 4. split; [|exact Hl].
  apply (X11_macro_is_mean_of_per_class_list _ _ _ _ _ _ _ _ _ _ E).
  intros ->. discriminate.
Defined.

(** ** Transforms of the scores *)

Lemma comparator_increasing_on (f : Qc -> Qc) (a b : Qc) :
  ((a < b)%Qc -> (f a < f b)%Qc) -> ((b < a)%Qc -> (f b < f a)%Qc) ->
  comparator (f a) (f b) = comparator a b.
Proof.
  intros Hab Hba. destruct (Qc_dec a b) as [[H|H]|H].
  - rewrite (proj2 (proj2 (comparator_spec (f a) (f b))) (Hab H)).
    now rewrite (proj2 (proj2 (comparator_spec a b)) H).
  - rewrite (proj1 (comparator_spec (f a) (f b)) (Hba H)).
    now rewrite (proj1 (comparator_spec a b) H).
  - subst b. now rewrite !(proj1 (proj2 (comparator_spec _ _)) eq_refl).
Qed.

Lemma pair_term_map_on (f : Qc -> Qc) (y_pred : list Qc) (i j : nat) :
  (forall a b, In a y_pred -> In b y_pred -> (a < b)%Qc -> (f a < f b)%Qc) ->
  pair_term (map f y_pred) i j = pair_term y_pred i j.
Proof.
  intros Hf. unfold pair_term. rewrite !getitem_map. unfold getitem.
  destruct (nth_error y_pred i) as [a|] eqn:Ea; [|reflexivity].
  rewrite !bind_ret_l.
  destruct (nth_error y_pred j) as [b|] eqn:Eb; [|reflexivity].
  rewrite !bind_ret_l. apply nth_error_In in Ea, Eb.
  rewrite !compare_comparator. rewrite comparator_increasing_on; auto.
Qed.

Lemma calculate_map_increasing_on (f : Qc -> Qc) (y : list Z) (y_pred : list Qc) :
  (forall a b, In a y_pred -> In b y_pred -> (a < b)%Qc -> (f a < f b)%Qc) ->
  _calculate y (map f y_pred) = _calculate y y_pred.
Proof.
  intros Hf. rewrite !calculate_unfold.
  destruct (split_indexes 0 y [] []) as [[[ps ns]|e] c]; [|reflexivity].
  cbn [bind].
  assert (E : mapM (row_term (map f y_pred) ns) ps = mapM (row_term y_pred ns) ps).
  { apply mapM_ext_in. intros i _. unfold row_term. f_equal.
    apply mapM_ext_in. intros j _. now apply pair_term_map_on. }
  now rewrite E.
Qed.

Lemma cons_column_map {A B} (f : A -> B) (r : list A) (m : list (list A)) :
  cons_column (map f r) (map (map f) m) = map (map f) (cons_column r m).
Proof.
  revert m. induction r as [|x r IH]; intros [|c m]; simpl; try reflexivity.
  now rewrite IH.
Qed.

Lemma transpose_rows_map {A B} (f : A -> B) (n : nat) (rows : list (list A)) :
  transpose_rows n (map (map f) rows) = map (map f) (transpose_rows n rows).
Proof.
  induction rows as [|r rows IH]; simpl.
  - induction n as [|n IHn]; simpl; [reflexivity|]. now rewrite IHn.
  - now rewrite IH, cons_column_map.
Qed.

Lemma In_cons_column {A} (x : A) (c r : list A) (m : list (list A)) :
  In c (cons_column r m) -> In x c -> In x r \/ exists c', In c' m /\ In x c'.
Proof.
  revert m. induction r as [|a r IH]; intros [|c0 m] Hc Hx; simpl in Hc;
    try contradiction.
  destruct Hc as [<- | Hc].
  - destruct Hx as [<- | Hx]; [left; now left|].
    right. exists c0. split; [now left|assumption].
  - destruct (IH m Hc Hx) as [H | (c' & Hc' & H)].
    + left. now right.
    + right. exists c'. split; [now right|assumption].
Qed.

(** Every entry of a transposed matrix is an entry of the matrix. *)
Lemma In_transpose_rows {A} (x : A) (c : list A) (n : nat) (rows : list (list A)) :
  In c (transpose_rows n rows) -> In x c -> In x (concat rows).
Proof.
  revert c. induction rows as [|r rows IH]; intros c Hc Hx; simpl in Hc.
  - apply repeat_spec in Hc. subst c. contradiction.
  - cbn [concat]. apply in_or_app.
    destruct (In_cons_column x c r _ Hc Hx) as [H | (c' & Hc' & H)]; [now left|].
    right. eapply IH; eauto.
Qed.

Lemma per_class_map_increasing_on (f : Qc -> Qc) (ty : list (list Z))
    (tp : list (list Qc)) :
  (forall s a b, In s tp -> In a s -> In b s -> (a < b)%Qc -> (f a < f b)%Qc) ->
  mapM (fun p => _calculate (fst p) (snd p)) (combine ty (map (map f) tp))
  = mapM (fun p => _calculate (fst p) (snd p)) (combine ty tp).
Proof.
  revert tp. induction ty as [|y ty IH]; intros [|s tp] Hf; try reflexivity.
  cbn [map combine mapM fst snd].
  rewrite (calculate_map_increasing_on f y s)
    by (intros a b; apply Hf; now left).
  rewrite IH; [reflexivity|].
  intros s' a b Hs'. apply Hf. now right.
Qed.

Lemma aggregate_map_increasing_on (f : Qc -> Qc) (y : batch Z) (n : nat)
    (P : list (list Qc)) (average : option string) :
  (forall a b, In a (concat P) -> In b (concat P) -> (a < b)%Qc -> (f a < f b)%Qc) ->
  aggregate y n (map (map f) P) average = aggregate y n P average.
Proof.
  intros Hf. unfold aggregate.
  destruct (match average with Some a => String.eqb a "micro" | None => false end).
  - destruct (flat y) as [[fy|e] c]; [|reflexivity]. cbn [bind].
    now rewrite <- concat_map, (calculate_map_increasing_on f fy (concat P) Hf).
  - destruct (transpose y) as [[ty|e] c]; [|reflexivity]. cbn [bind].
    rewrite transpose_rows_map, per_class_map_increasing_on; [reflexivity|].
    intros s a b Hs Ha Hb. apply Hf; eapply In_transpose_rows; eauto.
Qed.

(** X12. When the sigmoid is strictly increasing on the scores of the
    input (it keeps apart and in order any two scores that occur in
    [y_pred]; nothing is asked of it elsewhere, it may saturate), requesting
    it ([add_sigmoid] alone) changes nothing: for every [average] the outcome
    and the comparisons are those of the call without it. *)
Theorem X12_sigmoid_does_not_change_auc
    (one_hot : batch Z -> nat -> list (list Z))
    (softmax : list Qc -> list Qc) (sigmoid : Qc -> Qc)
    (y_pred : tensor Qc) (y : tensor Z) (to_onehot_y : bool)
    (average : option string) :
  (forall a b, In a (entries y_pred) -> In b (entries y_pred) ->
               (a < b)%Qc -> (sigmoid a < sigmoid b)%Qc) ->
  compute_roc_auc one_hot softmax sigmoid y_pred y to_onehot_y false true average
  = compute_roc_auc one_hot softmax sigmoid y_pred y to_onehot_y false false average.
Proof.
  intros Hs. unfold compute_roc_auc. cbn [andb].
  assert (Hv : forall v, normalize y_pred = Some (Vec v) -> v = entries y_pred).
  { destruct y_pred as [x|v0|n rows|k]; simpl; try discriminate.
    - now intros v [= <-].
    - destruct (n =? 1); [now intros v [= <-]|discriminate]. }
  assert (Hm : forall n rows, normalize y_pred = Some (Mat n rows) ->
                              concat rows = entries y_pred).
  { destruct y_pred as [x|v0|n0 rows0|k]; simpl; try discriminate.
    destruct (n0 =? 1); [discriminate|now intros n rows [= _ <-]]. }
  destruct (normalize y_pred) as [[v|n rows]|]; [| |reflexivity].
  - destruct (normalize y) as [yb|]; [|reflexivity]. cbn [map_batch].
    destruct (label_entries yb) as [[labels|e] c]; [|reflexivity]. cbn [bind].
    rewrite (calculate_map_increasing_on sigmoid labels v); [reflexivity|].
    now rewrite (Hv v eq_refl).
  - destruct (normalize y) as [yb|]; [|reflexivity]. cbn [map_batch].
    apply aggregate_map_increasing_on. now rewrite (Hm n rows eq_refl).
Qed.

(** A sigmoid that saturates at 1, on scores it keeps apart. *)
Lemma X12_witness :
  let saturating := fun x : Qc => match (x ?= 1)%Qc with Lt => x | _ => 1%Qc end in
  let y_pred := T2 2 [[frac 1 2; frac 1 3]; [frac 1 4; frac 3 4]; [frac 5 2; frac 1 5]] in
  compute_roc_auc (fun _ _ => []) (fun r => r) saturating
    y_pred (T2 2 [[1; 0]; [0; 1]; [1; 0]]%Z) false false true (Some "macro"%string)
  = compute_roc_auc (fun _ _ => []) (fun r => r) saturating
      y_pred (T2 2 [[1; 0]; [0; 1]; [1; 0]]%Z) false false false (Some "macro"%string).
Proof.
  intros saturating y_pred.
  apply X12_sigmoid_does_not_change_auc.
  intros a b Ha Hb. cbn [y_pred entries concat app] in Ha, Hb.
  repeat (destruct Ha as [<- | Ha]; [| ]); try contradiction;
    repeat (destruct Hb as [<- | Hb]; [| ]); try contradiction;
    intros H; vm_compute in H; try discriminate H; vm_compute; reflexivity.
Defined.

(** A sigmoid that merges two scores does change the result: saturating at
    1, it turns the scores 20 and 30 into a tie. *)
Example saturation_example :
  let saturating := fun x : Qc => match (x ?= 1)%Qc with Lt => x | _ => 1%Qc end in
  run (compute_roc_auc (fun _ _ => []) (fun r => r) saturating
         (T1 [frac 20 1; frac 30 1]) (T1 [0; 1]%Z) false false false None)
  = Return (Float 1%Qc)
  /\ run (compute_roc_auc (fun _ _ => []) (fun r => r) saturating
            (T1 [frac 20 1; frac 30 1]) (T1 [0; 1]%Z) false false true None)
     = Return (Float (frac 1 2)).
Proof.
  split; (eapply run_Float; [vm_compute; reflexivity | reflexivity]).
Qed.

Lemma comparator_decreasing (g : Qc -> Qc) (a b : Qc) :
  (forall x y, (x < y)%Qc -> (g y < g x)%Qc) ->
  comparator (g a) (g b) = comparator b a.
Proof.
  intros Hg. destruct (Qc_dec a b) as [[H|H]|H].
  - rewrite (proj1 (comparator_spec (g a) (g b)) (Hg _ _ H)).
    now rewrite (proj1 (comparator_spec b a) H).
  - rewrite (proj2 (proj2 (comparator_spec (g a) (g b))) (Hg _ _ H)).
    now rewrite (proj2 (proj2 (comparator_spec b a)) H).
  - subst b. now rewrite !(proj1 (proj2 (comparator_spec _ _)) eq_refl).
Qed.

Lemma wins_cols (P N : list Qc) : sum (map (fun a => col a N) P) = wins N P.
Proof.
  induction P as [|a P IH]; cbn [map].
  - now rewrite sum_nil, wins_nil_r.
  - now rewrite sum_cons, IH, wins_cons_r.
Qed.

Lemma wins_map_decreasing (g : Qc -> Qc) (P N : list Qc) :
  (forall x y, (x < y)%Qc -> (g y < g x)%Qc) ->
  wins (map g P) (map g N) = wins N P.
Proof.
  intros Hg. rewrite <- wins_cols. unfold wins, col. rewrite map_map. f_equal.
  apply map_ext. intros a. rewrite map_map. f_equal.
  apply map_ext. intros b. now apply comparator_decreasing.
Qed.

Lemma select_map (f : Qc -> Qc) (l : Z) (y : list Z) (y_pred : list Qc) :
  select l y (map f y_pred) = map f (select l y y_pred).
Proof.
  unfold select. revert y_pred.
  induction y as [|l' y IH]; intros [|x s]; cbn [map combine filter fst];
    try reflexivity.
  destruct (l' =? l)%Z; cbn [map snd]; now rewrite IH.
Qed.

(** X13. For labels in 0/1 with at least one 1 and one 0 and scores of the
    same length, applying a strictly decreasing function to every score (for
    instance negating them) turns the sum W of the comparator over the pairs
    into |pos|*|neg| - W: the exact quotient becomes 1 minus itself, and the
    values returned are the binary64 quotients of W and of |pos|*|neg| - W
    by |pos|*|neg|. *)
Theorem X13_decreasing_transform_flips_auc
    (g : Qc -> Qc) (y : list Z) (y_pred : list Qc) :
  (forall a b, (a < b)%Qc -> (g b < g a)%Qc) ->
  Forall (fun l => l = 0%Z \/ l = 1%Z) y ->
  In 1%Z y -> In 0%Z y -> length y_pred = length y ->
  let d := length (pos y) * length (neg y) in
  let W := pairwise_sum y y_pred in
  (run (_calculate y y_pred) = Return (W / Qc_of_nat d)%Qc
   /\ run (_calculate y (map g y_pred)) = Return (1 - W / Qc_of_nat d)%Qc)
  /\ (run (_calculate64 y y_pred) = Return (div64 W d)
      /\ run (_calculate64 y (map g y_pred)) = Return (div64 (Qc_of_nat d - W) d)).
Proof.
  intros Hg Hb H1 H0 Hl d W. apply Forall_is_binary in Hb.
  pose proof (calculate_defined y y_pred Hb H1 H0 ltac:(lia)) as Hc.
  pose proof Hc as Hq. rewrite calculate_binary in Hq by (auto; lia).
  assert (HW : wins (select 1 y y_pred) (select 0 y y_pred) = W).
  { unfold W. rewrite pairwise_sum_wins. unfold pos, neg.
    now rewrite !select_indices_of by lia. }
  assert (Hd : length (select 1 y y_pred) * length (select 0 y y_pred) = d).
  { unfold d, pos, neg. rewrite <- !select_indices_of by lia.
    now rewrite !length_map. }
  assert (Hd0 : d <> 0) by now apply pos_neg_nonzero.
  pose proof (wins_swap (select 1 y y_pred) (select 0 y y_pred)) as Hs.
  rewrite HW, Hd in Hs.
  assert (HW' : wins (select 0 y y_pred) (select 1 y y_pred) = (Qc_of_nat d - W)%Qc)
    by (rewrite <- Hs; ring).
  split; split.
  - now rewrite Hc.
  - rewrite calculate_binary by (rewrite ?length_map; auto; lia).
    rewrite !select_map. unfold quotient.
    rewrite !length_map, (wins_map_decreasing g _ _ Hg), Hd, HW'.
    destruct (Nat.eqb_spec d 0); [contradiction|]. cbn [run fst]. f_equal.
    field. now apply Qc_of_nat_neq_0.
  - rewrite calculate64_binary by (auto; lia).
    unfold quotient64. rewrite HW, Hd.
    destruct (Nat.eqb_spec d 0); [contradiction|reflexivity].
  - rewrite calculate64_binary by (rewrite ?length_map; auto; lia).
    rewrite !select_map. unfold quotient64.
    rewrite !length_map, (wins_map_decreasing g _ _ Hg), Hd, HW'.
    destruct (Nat.eqb_spec d 0); [contradiction|reflexivity].
Qed.

Lemma X13_witness :
  let y := [1; 0; 0; 1]%Z in
  let y_pred := [frac 1 2; frac 1 10; frac 3 5; frac 7 10] in
  let d := length (pos y) * length (neg y) in
  let W := pairwise_sum y y_pred in
  (run (_calculate y y_pred) = Return (W / Qc_of_nat d)%Qc
   /\ run (_calculate y (map Qcopp y_pred)) = Return (1 - W / Qc_of_nat d)%Qc)
  /\ (run (_calculate64 y y_pred) = Return (div64 W d)
      /\ run (_calculate64 y (map Qcopp y_pred)) = Return (div64 (Qc_of_nat d - W) d)).
Proof.
  apply X13_decreasing_transform_flips_auc.
  - intros a b H. apply Qclt_minus_iff. apply Qclt_minus_iff in H.
    now replace (- a + - - b)%Qc with (b + - a)%Qc by ring.
  - apply Forall_is_binary. reflexivity.
  - simpl; auto.
  - simpl; auto.
  - reflexivity.
Defined.

(** ** Failures in the multi-class path *)

Lemma mapM_first_raise {A B} (f : A -> M B) (g : A -> B) (c : A -> nat)
    (l1 : list A) (x0 : A) (l2 : list A) (e : exn) (k : nat) :
  (forall x, In x l1 -> f x = (Return (g x), c x)) ->
  f x0 = (Raise e, k) ->
  mapM f (l1 ++ x0 :: l2) = (Raise e, list_sum (map c l1) + k).
Proof.
  intros H Hx0. induction l1 as [|x l1 IH]; cbn [app mapM map].
  - now rewrite Hx0.
  - rewrite (H x (or_introl eq_refl)), bind_Return.
    rewrite IH by (intros; apply H; now right).
    unfold list_sum. cbn [fst snd bind fold_right]. f_equal. lia.
Qed.

Section Failures.
Variable one_hot : batch Z -> nat -> list (list Z).
Variable softmax : list Qc -> list Qc.
Variable sigmoid : Qc -> Qc.

Local Notation "'roc_auc'" := (compute_roc_auc one_hot softmax sigmoid).

(** X14. In the per-class modes (every [average] but micro) the classes are
    computed in order and the first failure ends the call: when the label
    and score matrices are rectangular of the same shape, the columns before
    class k hold 0/1 labels with at least one 1 and one 0, and [_calculate]
    raises e on column k, the call raises e, after the comparisons of the
    classes before k and those made in class k; [average] is not looked
    at. *)
Theorem X14_first_failing_class
    (y_pred : tensor Qc) (y : tensor Z) (to_onehot_y add_softmax add_sigmoid : bool)
    (average : option string)
    (n k : nat) (rows : list (list Qc)) (yb : batch Z) (Y : list (list Z))
    (e : exn) (ck : nat) :
  add_softmax && add_sigmoid = false ->
  normalize y_pred = Some (Mat n rows) ->
  normalize y = Some yb ->
  prepared_labels one_hot to_onehot_y yb n = Mat n Y ->
  let P := prepared_scores softmax sigmoid add_softmax add_sigmoid rows in
  rectangular n Y -> rectangular n P -> length P = length Y ->
  average <> Some "micro"%string ->
  k < n ->
  (forall i, i < k ->
             Forall (fun l => l = 0%Z \/ l = 1%Z) (column 0%Z Y i)
             /\ In 1%Z (column 0%Z Y i) /\ In 0%Z (column 0%Z Y i)) ->
  _calculate (column 0%Z Y k) (column 0%Qc P k) = (Raise e, ck) ->
  roc_auc y_pred y to_onehot_y add_softmax add_sigmoid average
  = (Raise e,
     list_sum (map (fun i => length (pos (column 0%Z Y i))
                             * length (neg (column 0%Z Y i))) (seq 0 k)) + ck).
Proof.
  intros Hf Hp Hy HY P HrY HrP Hl Havg Hk Hc Hfail.
  rewrite (compute_2d _ _ _ _ _ _ _ _ _ _ _ _ Hf Hp Hy), HY. fold P.
  assert (Em : match average with Some a => String.eqb a "micro" | None => false end
               = false).
  { destruct average as [a|]; [|reflexivity].
    destruct (String.eqb_spec a "micro"); [subst; contradiction|reflexivity]. }
  rewrite (aggregate_per_class _ _ _ _ Em). cbn [transpose]. rewrite bind_ret_l.
  rewrite (transpose_rows_columns 0%Z n Y HrY), (transpose_rows_columns 0%Qc n P HrP).
  unfold columns. rewrite combine_map_map, mapM_map_list. cbn [fst snd].
  replace (seq 0 n) with (seq 0 k ++ k :: seq (S k) (n - S k)).
  2:{ change (k :: seq (S k) (n - S k)) with (seq k (S (n - S k))).
      rewrite <- seq_app. f_equal. lia. }
  rewrite (mapM_first_raise _
             (fun i => binary_auc (column 0%Z Y i) (column 0%Qc P i))
             (fun i => length (pos (column 0%Z Y i)) * length (neg (column 0%Z Y i)))
             _ _ _ e ck).
  - reflexivity.
  - intros i Hi. apply in_seq in Hi. destruct (Hc i ltac:(lia)) as (Hb & H1 & H0).
    apply calculate_defined; auto.
    + now apply Forall_is_binary.
    + rewrite !column_length. lia.
  - exact Hfail.
Qed.

(** X15. Scores with several columns need labels of rank 2: with labels of
    shape (batch,) or (batch, 1) and without [to_onehot_y] the call fails
    for every [average], before any comparison. *)
Theorem X15_vector_labels_need_one_hot
    (y_pred : tensor Qc) (y : tensor Z) (add_softmax add_sigmoid : bool)
    (average : option string) (n : nat) (rows : list (list Qc)) (v : list Z) :
  normalize y_pred = Some (Mat n rows) ->
  normalize y = Some (Vec v) ->
  exists e,
    roc_auc y_pred y false add_softmax add_sigmoid average = (Raise e, 0).
Proof.
  intros Hp Hy.
  destruct (add_softmax && add_sigmoid) eqn:Hf.
  { unfold compute_roc_auc. rewrite Hf. now eexists. }
  rewrite (compute_2d _ _ _ _ _ _ _ _ _ _ _ _ Hf Hp Hy).
  unfold prepared_labels, aggregate.
  destruct (match average with Some a => String.eqb a "micro" | None => false end).
  - destruct v as [|l v]; cbn [flat]; [|now eexists].
    rewrite bind_ret_l, (calculate_undefined [] _ eq_refl (or_introl eq_refl)).
    now eexists.
  - now eexists.
Qed.

End Failures.

(** *** Claim C4 *)

(** In the per-class modes the first class on which [_calculate] raises
    ends the call. *)
Lemma aggregate_first_raise (n k : nat) (Y : list (list Z)) (P : list (list Qc))
    (average : option string) (e : exn) (ck : nat) :
  rectangular n Y -> rectangular n P -> length P = length Y ->
  average <> Some "micro"%string ->
  k < n ->
  (forall i, i < k ->
             Forall (fun l => l = 0%Z \/ l = 1%Z) (column 0%Z Y i)
             /\ In 1%Z (column 0%Z Y i) /\ In 0%Z (column 0%Z Y i)) ->
  _calculate (column 0%Z Y k) (column 0%Qc P k) = (Raise e, ck) ->
  aggregate (Mat n Y) n P average
  = (Raise e,
     list_sum (map (fun i => length (pos (column 0%Z Y i))
                             * length (neg (column 0%Z Y i))) (seq 0 k)) + ck).
Proof.
  intros HrY HrP Hl Havg Hk Hc Hfail.
  assert (Em : match average with Some a => String.eqb a "micro" | None => false end
               = false).
  { destruct average as [a|]; [|reflexivity].
    destruct (String.eqb_spec a "micro"); [subst; contradiction|reflexivity]. }
  rewrite (aggregate_per_class _ _ _ _ Em). cbn [transpose]. rewrite bind_ret_l.
  rewrite (transpose_rows_columns 0%Z n Y HrY), (transpose_rows_columns 0%Qc n P HrP).
  unfold columns. rewrite combine_map_map, mapM_map_list. cbn [fst snd].
  replace (seq 0 n) with (seq 0 k ++ k :: seq (S k) (n - S k)).
  2:{ change (k :: seq (S k) (n - S k)) with (seq k (S (n - S k))).
      rewrite <- seq_app. f_equal. lia. }
  rewrite (mapM_first_raise _
             (fun i => binary_auc (column 0%Z Y i) (column 0%Qc P i))
             (fun i => length (pos (column 0%Z Y i)) * length (neg (column 0%Z Y i)))
             _ _ _ e ck).
  - reflexivity.
  - intros i Hi. apply in_seq in Hi. destruct (Hc i ltac:(lia)) as (Hb & H1 & H0).
    apply calculate_defined; auto.
    + now apply Forall_is_binary.
    + rewrite !column_length. lia.
  - exact Hfail.
Qed.

Lemma list_sum_ge_length {A} (f : A -> nat) (l : list A) :
  (forall x, In x l -> 1 <= f x) -> length l <= list_sum (map f l).
Proof.
  induction l as [|x l IH]; intros H; [apply Nat.le_refl|].
  cbn [map length]. unfold list_sum in *. cbn [fold_right].
  pose proof (H x (or_introl eq_refl)).
  specialize (IH (fun z Hz => H z (or_intror Hz))). lia.
Qed.

(** C4 as stated fails: the check of [average] comes last, after the
    comparisons of every class; and in the per-class modes an invalid
    label of the second class is reported after the comparisons of the
    first. *)
Lemma C4_counterexample :
  ~ (forall (one_hot : batch Z -> nat -> list (list Z))
            (softmax : list Qc -> list Qc) (sigmoid : Qc -> Qc)
            (y_pred : tensor Qc) (y : tensor Z)
            (to_onehot_y add_softmax add_sigmoid : bool) (average : option string)
            (e : exn) (c : nat),
        compute_roc_auc one_hot softmax sigmoid y_pred y
          to_onehot_y add_softmax add_sigmoid average = (Raise e, c) ->
        classify e <> None ->
        c = 0)
  /\ compute_roc_auc (fun _ _ => []) (fun r => r) (fun x => x)
       (T2 2 [[frac 1 2; frac 1 3]; [frac 1 4; frac 1 4]; [frac 3 4; frac 1 5];
              [frac 1 6; frac 1 7]])
       (T2 2 [[1; 0]; [0; 2]; [1; 0]; [0; 1]]%Z) false false false
       (Some "macro"%string)
     = (Raise (ValueError binary_msg), 4).
Proof.
  split; [|vm_compute; reflexivity].
  intros H.
  specialize (H (fun _ _ => []) (fun r => r) (fun x => x)
                (T2 2 [[frac 1 2; frac 1 3]; [frac 1 4; frac 1 4]; [frac 3 4; frac 1 5]])
                (T2 2 [[1; 0]; [0; 1]; [1; 0]]%Z) false false false
                (Some "median"%string) (ValueError unsupported_msg) 4).
  assert (E : 4 = 0); [|discriminate].
  apply H.
  - vm_compute. reflexivity.
  - discriminate.
Qed.

(** C4, amended. The errors for conflicting transforms and for a wrong rank
    are raised before any comparison.  An invalid label is detected by each
    call of [_calculate] before that call compares anything; hence with
    single-channel scores and with average micro it is raised before any
    comparison at all, while in the per-class modes, when class k is the
    first with an invalid label, it is raised after all the comparisons of
    the classes before k (at least one each).  The error for an unsupported
    [average] is raised only once the per-class values have all been
    computed, with all their comparisons. *)
Theorem C4_validation_order
    (one_hot : batch Z -> nat -> list (list Z))
    (softmax : list Qc -> list Qc) (sigmoid : Qc -> Qc)
    (y_pred : tensor Qc) (y : tensor Z)
    (to_onehot_y add_softmax add_sigmoid : bool) (average : option string)
    (e : exn) (c : nat) :
  compute_roc_auc one_hot softmax sigmoid y_pred y
    to_onehot_y add_softmax add_sigmoid average = (Raise e, c) ->
  (classify e = Some ShapeError \/ classify e = Some ConflictingTransformError -> c = 0)
  /\ (classify e = Some InvalidLabelError ->
      (exists s, normalize y_pred = Some (Vec s)) \/ average = Some "micro"%string ->
      c = 0)
  /\ (classify e = Some UnsupportedAverageError ->
      exists l,
        compute_roc_auc one_hot softmax sigmoid y_pred y
          to_onehot_y add_softmax add_sigmoid None = (Return (FloatList l), c))
  /\ (forall labels scores e' c',
         _calculate labels scores = (Raise e', c') ->
         classify e' = Some InvalidLabelError -> c' = 0)
  /\ (forall n k rows yb Y,
         add_softmax && add_sigmoid = false ->
         normalize y_pred = Some (Mat n rows) ->
         normalize y = Some yb ->
         prepared_labels one_hot to_onehot_y yb n = Mat n Y ->
         rectangular n Y ->
         rectangular n (prepared_scores softmax sigmoid add_softmax add_sigmoid rows) ->
         length (prepared_scores softmax sigmoid add_softmax add_sigmoid rows)
         = length Y ->
         average <> Some "micro"%string ->
         k < n ->
         (forall i, i < k ->
                    Forall (fun l => l = 0%Z \/ l = 1%Z) (column 0%Z Y i)
                    /\ In 1%Z (column 0%Z Y i) /\ In 0%Z (column 0%Z Y i)) ->
         (exists l, In l (column 0%Z Y k) /\ l <> 0%Z /\ l <> 1%Z) ->
         e = ValueError binary_msg
         /\ c = list_sum (map (fun i => length (pos (column 0%Z Y i))
                                        * length (neg (column 0%Z Y i))) (seq 0 k))
         /\ k <= c).
Proof.
  intros H. split; [|split; [|split; [|split]]].
  - now apply (compute_Raise_validation _ _ _ _ _ _ _ _ _ _ _ H).
  - now apply (compute_Raise_invalid_label _ _ _ _ _ _ _ _ _ _ _ H).
  - now apply (compute_Raise_unsupported _ _ _ _ _ _ _ _ _ _ _ H).
  - intros labels scores e' c' H' He'.
    apply calculate_Raise_classify in H' as [[_ ->]|H']; [reflexivity|congruence].
  - intros n k rows yb Y Hf Hp Hy HY HrY HrP Hl Havg Hk Hc Hbad.
    rewrite (compute_2d _ _ _ _ _ _ _ _ _ _ _ _ Hf Hp Hy), HY in H.
    rewrite (aggregate_first_raise n k Y _ average (ValueError binary_msg) 0
               HrY HrP Hl Havg Hk Hc) in H.
    2:{ apply calculate_invalid. now apply invalid_label_not_binary. }
    injection H as <- <-. rewrite Nat.add_0_r. repeat split.
    etransitivity; [|apply list_sum_ge_length]; [now rewrite length_seq|].
    intros i Hi. apply in_seq in Hi. destruct (Hc i ltac:(lia)) as (_ & H1 & H0).
    pose proof (pos_neg_nonzero _ H1 H0). lia.
Qed.

Lemma C4_witness :
  let Y := [[1; 0]; [0; 2]; [1; 0]; [0; 1]]%Z in
  let P := [[frac 1 2; frac 1 3]; [frac 1 4; frac 1 4]; [frac 3 4; frac 1 5];
            [frac 1 6; frac 1 7]] in
  compute_roc_auc (fun _ _ => []) (fun r => r) (fun x => x)
    (T2 2 P) (T2 2 Y) false false false (Some "weighted"%string)
  = (Raise (ValueError binary_msg), 4)
  /\ comparisons
       (compute_roc_auc (fun _ _ => []) (fun r => r) (fun x => x)
          (T2 2 [[frac 1 2; frac 1 3]; [frac 1 4; frac 1 4]])
          (T2 2 [[1; 0]; [0; 2]]%Z) false false false (Some "micro"%string))
     = 0.
Proof.
  intros Y P. split.
  - assert (E : exists e c,
               compute_roc_auc (fun _ _ => []) (fun r => r) (fun x => x)
                 (T2 2 P) (T2 2 Y) false false false (Some "weighted"%string)
               = (Raise e, c))
      by (do 2 eexists; vm_compute; reflexivity).
    destruct E as (e & c & E). rewrite E.
    destruct (proj2 (proj2 (proj2 (proj2
                (C4_validation_order _ _ _ _ _ _ _ _ _ _ _ E))))
                2 1 P (Mat 2 Y) Y eq_refl eq_refl eq_refl eq_refl)
      as (He & Hc & _).
    + repeat constructor.
    + repeat constructor.
    + reflexivity.
    + discriminate.
    + lia.
    + intros i Hi.
      destruct i as [|i]; [|lia]; (split; [apply Forall_is_binary; reflexivity|]);
        simpl; auto.
    + exists 2%Z. simpl. repeat split; auto; lia.
    + now rewrite He, Hc.
  - assert (E : exists e c,
               compute_roc_auc (fun _ _ => []) (fun r => r) (fun x => x)
                 (T2 2 [[frac 1 2; frac 1 3]; [frac 1 4; frac 1 4]])
                 (T2 2 [[1; 0]; [0; 2]]%Z) false false false (Some "micro"%string)
               = (Raise e, c)
               /\ classify e = Some InvalidLabelError)
      by (do 2 eexists; split; vm_compute; reflexivity).
    destruct E as (e & c & E & He). rewrite E.
    exact (proj1 (proj2 (C4_validation_order _ _ _ _ _ _ _ _ _ _ _ E))
             He (or_intror eq_refl)).
Defined.

Lemma X14_witness :
  let Y := [[1; 0]; [0; 2]; [1; 0]; [0; 1]]%Z in
  let P := [[frac 1 2; frac 1 3]; [frac 1 4; frac 1 4]; [frac 3 4; frac 1 5];
            [frac 1 6; frac 1 7]] in
  compute_roc_auc (fun _ _ => []) (fun r => r) (fun x => x)
    (T2 2 P) (T2 2 Y) false false false (Some "weighted"%string)
  = (Raise (ValueError binary_msg),
     list_sum (map (fun i => length (pos (column 0%Z Y i))
                             * length (neg (column 0%Z Y i))) (seq 0 1)) + 0).
Proof.
  intros Y P.
  refine (X14_first_failing_class (fun _ _ => []) (fun r => r) (fun x => x)
            (T2 2 P) (T2 2 Y) false false false (Some "weighted"%string)
            2 1 P (Mat 2 Y) Y (ValueError binary_msg) 0
            eq_refl eq_refl eq_refl eq_refl _ _ eq_refl _ _ _ _).
  - repeat constructor.
  - repeat constructor.
  - discriminate.
  - lia.
  - intros i Hi.
    destruct i as [|i]; [|lia]; (split; [apply Forall_is_binary; reflexivity|]);
      simpl; auto.
  - reflexivity.
Defined.

Lemma X15_witness :
  exists e,
    compute_roc_auc (fun _ _ => []) (fun r => r) (fun x => x)
      (T2 2 [[frac 1 2; frac 1 3]; [frac 1 4; frac 1 4]])
      (T2 1 [[0]; [1]]%Z) false false false (Some "macro"%string)
    = (Raise e, 0).
Proof.
  exact (X15_vector_labels_need_one_hot (fun _ _ => []) (fun r => r) (fun x => x)
           (T2 2 [[frac 1 2; frac 1 3]; [frac 1 4; frac 1 4]])
           (T2 1 [[0]; [1]]%Z) false false (Some "macro"%string)
           2 [[frac 1 2; frac 1 3]; [frac 1 4; frac 1 4]] [0; 1]%Z eq_refl eq_refl).
Defined.

Lemma combine_map_seq {A B} (f : nat -> A) (g : nat -> B) (a m n : nat) :
  combine (map f (seq a m)) (map g (seq a n))
  = map (fun i => (f i, g i)) (seq a (Nat.min m n)).
Proof.
  revert a n. induction m as [|m IH]; intros a [|n]; try reflexivity.
  cbn [seq map combine Nat.min]. now rewrite IH.
Qed.

(** X16. The numbers of columns of the labels and of the scores are not
    compared: the classes are paired with [zip], label column i with score
    column i.  On rectangular matrices with m label columns and n score
    columns, whenever average None returns, the list has min m n entries;
    and when the rows are as many and the first min m n label columns hold
    0/1 values with at least one 1 and one 0, it returns the per-class
    values of the columns 0 .. min m n - 1, whatever the columns beyond
    hold. *)
Theorem X16_per_class_list_pairs_columns
    (one_hot : batch Z -> nat -> list (list Z))
    (softmax : list Qc -> list Qc) (sigmoid : Qc -> Qc)
    (y_pred : tensor Qc) (y : tensor Z) (to_onehot_y add_softmax add_sigmoid : bool)
    (n m : nat) (rows : list (list Qc)) (yb : batch Z) (Y : list (list Z)) :
  normalize y_pred = Some (Mat n rows) ->
  normalize y = Some yb ->
  prepared_labels one_hot to_onehot_y yb n = Mat m Y ->
  let P := prepared_scores softmax sigmoid add_softmax add_sigmoid rows in
  rectangular m Y ->
  rectangular n P ->
  (forall v c,
      compute_roc_auc one_hot softmax sigmoid y_pred y
        to_onehot_y add_softmax add_sigmoid None = (Return v, c) ->
      exists l, v = FloatList l /\ length l = Nat.min m n)
  /\ (add_softmax && add_sigmoid = false ->
      length P = length Y ->
      (forall i, i < Nat.min m n ->
                 Forall (fun l => l = 0%Z \/ l = 1%Z) (column 0%Z Y i)
                 /\ In 1%Z (column 0%Z Y i) /\ In 0%Z (column 0%Z Y i)) ->
      compute_roc_auc one_hot softmax sigmoid y_pred y
        to_onehot_y add_softmax add_sigmoid None
      = (Return (FloatList
                   (map (fun i => binary_auc (column 0%Z Y i) (column 0%Qc P i))
                        (seq 0 (Nat.min m n)))),
         list_sum (map (fun i => length (pos (column 0%Z Y i))
                                 * length (neg (column 0%Z Y i)))
                       (seq 0 (Nat.min m n))))).
Proof.
  intros Hp Hy HY P HrY HrP. split.
  - intros v c H.
    assert (Hf : add_softmax && add_sigmoid = false).
    { revert H. unfold compute_roc_auc.
      destruct (add_softmax && add_sigmoid); [discriminate|reflexivity]. }
    rewrite (compute_2d _ _ _ _ _ _ _ _ _ _ _ _ Hf Hp Hy), HY in H.
    rewrite (aggregate_per_class _ _ _ None eq_refl) in H.
    cbn [transpose] in H. rewrite bind_ret_l in H.
    apply bind_Return_inv in H as (aucs & c1 & c2 & Hm & H & _).
    injection H as <- _. exists aucs. split; [reflexivity|].
    rewrite (mapM_length _ _ _ _ Hm), length_combine.
    now rewrite !transpose_rows_length.
  - intros Hf Hl Hc.
    rewrite (compute_2d _ _ _ _ _ _ _ _ _ _ _ _ Hf Hp Hy), HY. fold P.
    rewrite (aggregate_per_class _ _ _ None eq_refl).
    cbn [transpose]. rewrite bind_ret_l.
    rewrite (transpose_rows_columns 0%Z m Y HrY), (transpose_rows_columns 0%Qc n P HrP).
    unfold columns. rewrite combine_map_seq, mapM_map_list. cbn [fst snd].
    rewrite (mapM_cost _
               (fun i => binary_auc (column 0%Z Y i) (column 0%Qc P i))
               (fun i => length (pos (column 0%Z Y i)) * length (neg (column 0%Z Y i)))).
    + rewrite bind_Return. cbn [ret fst snd]. f_equal. lia.
    + intros i Hi. apply in_seq in Hi. destruct (Hc i ltac:(lia)) as (Hb & H1 & H0).
      apply calculate_defined; auto.
      * now apply Forall_is_binary.
      * rewrite !column_length. lia.
Qed.

(** Three score columns against two label columns; the third score column
    is not read. *)
Lemma X16_witness :
  let Y := [[1; 0]; [0; 1]]%Z in
  let P := [[frac 1 2; frac 1 3; frac 1 9]; [frac 1 4; frac 1 4; frac 1 8]] in
  compute_roc_auc (fun _ _ => []) (fun r => r) (fun x => x)
    (T2 3 P) (T2 2 Y) false false false None
  = (Return (FloatList
               (map (fun i => binary_auc (column 0%Z Y i) (column 0%Qc P i))
                    (seq 0 (Nat.min 2 3)))),
     list_sum (map (fun i => length (pos (column 0%Z Y i))
                             * length (neg (column 0%Z Y i)))
                   (seq 0 (Nat.min 2 3)))).
Proof.
  intros Y P.
  refine (proj2 (X16_per_class_list_pairs_columns
                   (fun _ _ => []) (fun r => r) (fun x => x)
                   (T2 3 P) (T2 2 Y) false false false 3 2 P (Mat 2 Y) Y
                   eq_refl eq_refl eq_refl _ _) eq_refl eq_refl _).
  - repeat constructor.
  - repeat constructor.
  - intros i Hi.
    destruct i as [|[|i]]; [| |cbn in Hi; lia];
      (split; [apply Forall_is_binary; reflexivity|]); simpl; auto.
Defined.
